(** * TaskFlow: the task query / aggregation pipeline

    A shallow embedding of [lib/taskUtils.ts], [lib/sorting.ts] and
    [lib/filtering.ts], followed by the properties of the pipeline.

    Conventions of the embedding.
    - JavaScript numbers that are counts, weights or comparator results are
      integers and are kept in [Z]; the one place where the code leaves the
      integers, the completion percentage, is computed in binary64 floating
      point with the primitive floats of Rocq.
    - ISO 8601 timestamps ([dueDate], [createdAt], [updatedAt]) are only ever
      read through [new Date(s).getTime()]; a task carries the instant the
      string denotes, in milliseconds since the epoch.  A [dueDate] that the
      code finds falsy (absent, or the empty string) is [None].  Strings
      that do not parse as a date are not represented: [validateDueDate]
      rejects them and the task form writes [toISOString()] output only.
    - The wall clock ([new Date()], [Date.now()]) is an explicit argument
      [now]; it stands still during one call.
    - Strings are sequences of code units.  The string built-ins whose result
      depends on the host ([toLowerCase], [trim], [localeCompare]) are the
      methods of the class [JSStrings]. *)

From Stdlib Require Import ZArith List Ascii String Floats Uint63 Lia Sorted.
From Stdlib Require Import OrderedTypeEx DecimalString DecimalZ.
From stdpp Require Import base tactics option list gmap strings sorting.

Open Scope string_scope.
Open Scope Z_scope.

(** ** Domain types ([types/index.ts]) *)

Inductive Priority := Low | Medium | High | Critical.
Inductive Category := Work | Personal | Shopping | Health | Other.
Inductive Status := Todo | InProgress | Done.

(** The string label of each enumeration value, as written in the source. *)
Definition Priority_label (p : Priority) : string :=
  match p with
  | Low => "low" | Medium => "medium" | High => "high" | Critical => "critical"
  end.

Definition Category_label (c : Category) : string :=
  match c with
  | Work => "work" | Personal => "personal" | Shopping => "shopping"
  | Health => "health" | Other => "other"
  end.

Definition Status_label (s : Status) : string :=
  match s with
  | Todo => "todo" | InProgress => "in-progress" | Done => "done"
  end.

#[global] Instance Priority_eq_dec : EqDecision Priority.
Proof. solve_decision. Defined.
#[global] Instance Category_eq_dec : EqDecision Category.
Proof. solve_decision. Defined.
#[global] Instance Status_eq_dec : EqDecision Status.
Proof. solve_decision. Defined.

Definition Priority_code (p : Priority) : nat :=
  match p with Low => 0 | Medium => 1 | High => 2 | Critical => 3 end%nat.
Definition Priority_decode (n : nat) : option Priority :=
  match n with
  | 0 => Some Low | 1 => Some Medium | 2 => Some High | 3 => Some Critical
  | _ => None
  end%nat.
#[global] Program Instance Priority_countable : Countable Priority :=
  inj_countable Priority_code Priority_decode _.
Next Obligation. by intros []. Qed.

Definition Category_code (c : Category) : nat :=
  match c with
  | Work => 0 | Personal => 1 | Shopping => 2 | Health => 3 | Other => 4
  end%nat.
Definition Category_decode (n : nat) : option Category :=
  match n with
  | 0 => Some Work | 1 => Some Personal | 2 => Some Shopping
  | 3 => Some Health | 4 => Some Other | _ => None
  end%nat.
#[global] Program Instance Category_countable : Countable Category :=
  inj_countable Category_code Category_decode _.
Next Obligation. by intros []. Qed.

Definition Status_code (s : Status) : nat :=
  match s with Todo => 0 | InProgress => 1 | Done => 2 end%nat.
Definition Status_decode (n : nat) : option Status :=
  match n with
  | 0 => Some Todo | 1 => Some InProgress | 2 => Some Done | _ => None
  end%nat.
#[global] Program Instance Status_countable : Countable Status :=
  inj_countable Status_code Status_decode _.
Next Obligation. by intros []. Qed.

(** [interface Task]. *)
Record Task := mkTask {
  id : string;
  title : string;
  description : option string;
  priority : Priority;
  category : Category;
  status : Status;
  dueDate : option Z;
  createdAt : Z;
  updatedAt : Z;
  tags : list string;
  assignee : option string;
}.

(** [Priority | 'all'], [Category | 'all'], [Status | 'all']. *)
Inductive OrAll (A : Type) := All | Exactly (a : A).
Arguments All {A}.
Arguments Exactly {A} a.

Inductive SortField :=
  SortTitle | SortPriority | SortCreatedAt | SortDueDate | SortStatus.
Inductive SortOrder := asc | desc.

(** [TaskFilters['sortBy']], a four-element subset of [SortField]. *)
Inductive SortBy := ByCreatedAt | ByDueDate | ByPriority | ByTitle.

(** [filters.sortBy as SortField]. *)
Definition SortBy_as_SortField (s : SortBy) : SortField :=
  match s with
  | ByCreatedAt => SortCreatedAt | ByDueDate => SortDueDate
  | ByPriority => SortPriority | ByTitle => SortTitle
  end.

Record TaskFilters := mkFilters {
  search : string;
  f_priority : OrAll Priority;
  f_category : OrAll Category;
  f_status : OrAll Status;
  sortBy : SortBy;
  sortOrder : SortOrder;
}.

Definition DEFAULT_FILTERS : TaskFilters :=
  {| search := ""; f_priority := All; f_category := All; f_status := All;
     sortBy := ByCreatedAt; sortOrder := desc |}.

Record TaskStats := mkStats {
  total : Z;
  byStatus : gmap Status Z;
  byPriority : gmap Priority Z;
  byCategory : gmap Category Z;
  overdue : Z;
  completionRate : Z;
}.

(** ** String built-ins of the host *)

(** [toLowerCase] follows the Unicode case tables, [trim] the Unicode white
    space set and [localeCompare] the collation of the default locale.  The
    code relies on nothing but the facts below: the empty string is a fixed
    point of [trim] and [toLowerCase], and collation is a consistent
    comparator (swapping the operands swaps the sign, and "not after" is
    transitive). *)
Class JSStrings := {
  toLowerCase : string → string;
  trim : string → string;
  localeCompare : string → string → Z;
  toLowerCase_empty : toLowerCase "" = "";
  trim_empty : trim "" = "";
  localeCompare_sym a b : localeCompare a b < 0 ↔ 0 < localeCompare b a;
  localeCompare_trans a b c :
    localeCompare a b ≤ 0 → localeCompare b c ≤ 0 → localeCompare a c ≤ 0;
}.

(** [s.includes(q)]: [q] occurs in [s] as a contiguous substring. *)
Fixpoint includes (s q : string) : bool :=
  String.prefix q s ||
  match s with
  | EmptyString => false
  | String _ s' => includes s' q
  end.

(** A host to run the definitions on: ASCII letters, ASCII white space and
    the order of code units. *)
Module AsciiHost.

Definition lower_char (c : ascii) : ascii :=
  let n := N_of_ascii c in
  if ((65 <=? n) && (n <=? 90))%N then ascii_of_N (n + 32) else c.

Fixpoint lower (s : string) : string :=
  match s with
  | EmptyString => EmptyString
  | String c s' => String (lower_char c) (lower s')
  end.

Definition is_space (c : ascii) : bool :=
  let n := N_of_ascii c in ((9 <=? n) && (n <=? 13) || (n =? 32))%N.

Fixpoint trim_start (s : string) : string :=
  match s with
  | String c s' => if is_space c then trim_start s' else s
  | EmptyString => EmptyString
  end.

Definition trim_both (s : string) : string :=
  String.rev (trim_start (String.rev (trim_start s))).

Definition compare_units (a b : string) : Z :=
  match String.compare a b with Lt => -1 | Eq => 0 | Gt => 1 end.

End AsciiHost.

(** ** [lib/taskUtils.ts] *)

Section Core.
Context `{JSStrings}.

(** [PRIORITY_WEIGHTS]. *)
Definition getPriorityWeight (p : Priority) : Z :=
  match p with Low => 1 | Medium => 2 | High => 3 | Critical => 4 end.

Definition comparePriorities (a b : Priority) : Z :=
  getPriorityWeight b - getPriorityWeight a.

(** [isTaskOverdue]; [new Date() > new Date(task.dueDate)] compares the two
    instants. *)
Definition isTaskOverdue (now : Z) (task : Task) : bool :=
  match dueDate task with
  | None => false
  | Some due =>
      if decide (status task = Done) then false else due <? now
  end.

(** The predicate handed to [tasks.filter] in [filterTasksBySearch].  An
    absent description makes [task.description?.toLowerCase().includes(q)]
    undefined, which [||] passes over. *)
Definition matchesSearch (q : string) (task : Task) : bool :=
  includes (toLowerCase (title task)) q
  || match description task with
     | Some d => includes (toLowerCase d) q
     | None => false
     end
  || existsb (λ tag, includes (toLowerCase tag) q) (tags task).

Definition filterTasksBySearch (tasks : list Task) (query : string)
  : list Task :=
  let q := toLowerCase (trim query) in
  if decide (q = "") then tasks else List.filter (matchesSearch q) tasks.

(** *** Statistics *)

(** [m[k]++] on a counter record whose keys are all present. *)
Definition increment `{Countable K} (k : K) (m : gmap K Z) : gmap K Z :=
  alter (λ n, n + 1) k m.

(** [Math.round]: the integer closest to [x], ties towards +∞, computed
    exactly from the binary64 representation of [x].  Only finite arguments
    reach it (a quotient in [0, 1] times 100); infinities and NaN,
    which JavaScript hands back unchanged, are sent to 0 (they do not arise:
    see [calculateStats]). *)
Definition Math_round (x : float) : Z :=
  match Prim2SF x with
  | S754_finite s m e =>
      let v := if s then Z.neg m else Z.pos m in
      if 0 <=? e then v * 2 ^ e
      else (2 * v + 2 ^ (- e)) / 2 ^ (1 - e)
  | _ => 0
  end.

(** An integer count as a JavaScript number; exact below 2^53, which bounds
    every array length. *)
Definition Number (n : Z) : float := PrimFloat.of_uint63 (Uint63.of_Z n).

(** The initial value of [stats] in [calculateStats]. *)
Definition initialStats (tasks : list Task) : TaskStats :=
  {| total := Z.of_nat (length tasks);
     byStatus := {[ Todo := 0; InProgress := 0; Done := 0 ]};
     byPriority := {[ Low := 0; Medium := 0; High := 0; Critical := 0 ]};
     byCategory :=
       {[ Work := 0; Personal := 0; Shopping := 0; Health := 0; Other := 0 ]};
     overdue := 0;
     completionRate := 0 |}.

(** The body of the [forEach] callback, as a transformer of [stats]. *)
Definition tally (now : Z) (stats : TaskStats) (task : Task) : TaskStats :=
  {| total := total stats;
     byStatus := increment (status task) (byStatus stats);
     byPriority := increment (priority task) (byPriority stats);
     byCategory := increment (category task) (byCategory stats);
     overdue :=
       if isTaskOverdue now task then overdue stats + 1 else overdue stats;
     completionRate := completionRate stats |}.

Definition calculateStats (now : Z) (tasks : list Task) : TaskStats :=
  let stats := fold_left (tally now) tasks (initialStats tasks) in
  let len := Z.of_nat (length tasks) in
  {| total := total stats;
     byStatus := byStatus stats;
     byPriority := byPriority stats;
     byCategory := byCategory stats;
     overdue := overdue stats;
     completionRate :=
       if 0 <? len
       then Math_round
              (Number (byStatus stats !!! Done) / Number len * Number 100)%float
       else 0 |}.

(** ** [lib/sorting.ts] *)

Definition compareByTitle (a b : Task) : Z :=
  localeCompare (toLowerCase (title a)) (toLowerCase (title b)).

Definition compareByPriority (a b : Task) : Z :=
  getPriorityWeight (priority b) - getPriorityWeight (priority a).

Definition compareByCreatedAt (a b : Task) : Z :=
  createdAt b - createdAt a.

Definition compareByDueDate (a b : Task) : Z :=
  match dueDate a, dueDate b with
  | None, None => 0
  | None, Some _ => 1
  | Some _, None => -1
  | Some da, Some db => da - db
  end.

Definition COMPARATORS (field : SortField) : Task → Task → Z :=
  match field with
  | SortTitle => compareByTitle
  | SortPriority => compareByPriority
  | SortCreatedAt => compareByCreatedAt
  | SortDueDate => compareByDueDate
  | SortStatus =>
      λ a b, localeCompare (Status_label (status a)) (Status_label (status b))
  end.

(** A comparator is consistent when swapping its operands swaps the sign of
    the result and "does not sort after" is transitive. *)
Definition consistent {A} (cmp : A → A → Z) : Prop :=
  (∀ a b, cmp a b < 0 ↔ 0 < cmp b a) ∧
  (∀ a b c, cmp a b ≤ 0 → cmp b c ≤ 0 → cmp a c ≤ 0).

(** [Array.prototype.sort(comparator)] on the contents of an array.  The
    language fixes the outcome for a consistent comparator: the stable
    arrangement in which [x] stays before [y] unless [comparator(x, y) > 0].
    Insertion from the right computes that arrangement
    ([stable_sort_is_Array_sort] below). *)
Fixpoint sort_insert {A} (cmp : A → A → Z) (x : A) (l : list A) : list A :=
  match l with
  | [] => [x]
  | y :: l' => if cmp x y <=? 0 then x :: l else y :: sort_insert cmp x l'
  end.

Definition Array_sort {A} (cmp : A → A → Z) (l : list A) : list A :=
  foldr (sort_insert cmp) [] l.

Definition sortTasks (tasks : list Task) (field : SortField)
  (order : SortOrder) : list Task :=
  let comparator := COMPARATORS field in
  let sorted := Array_sort comparator tasks in
  match order with desc => rev sorted | asc => sorted end.

Record SortCriteria := mkCriteria { field : SortField; order : SortOrder }.

(** The comparator that [multiSort] passes to [sort]: the [for] loop over
    [criteria] with its early [return]. *)
Fixpoint multiSort_compare (criteria : list SortCriteria) (a b : Task) : Z :=
  match criteria with
  | [] => 0
  | c :: rest =>
      let cmp := COMPARATORS (field c) a b in
      if decide (cmp ≠ 0)
      then match order c with asc => cmp | desc => - cmp end
      else multiSort_compare rest a b
  end.

Definition multiSort (tasks : list Task) (criteria : list SortCriteria)
  : list Task :=
  Array_sort (multiSort_compare criteria) tasks.

(** ** [lib/filtering.ts] *)

Definition filterByPriority (tasks : list Task) (p : OrAll Priority)
  : list Task :=
  match p with
  | All => tasks
  | Exactly p => List.filter (λ t, bool_decide (priority t = p)) tasks
  end.

Definition filterByCategory (tasks : list Task) (c : OrAll Category)
  : list Task :=
  match c with
  | All => tasks
  | Exactly c => List.filter (λ t, bool_decide (category t = c)) tasks
  end.

Definition filterByStatus (tasks : list Task) (s : OrAll Status)
  : list Task :=
  match s with
  | All => tasks
  | Exactly s => List.filter (λ t, bool_decide (status t = s)) tasks
  end.

(** The callback of [filterOverdue]:
    [t.dueDate && t.status !== 'done' && new Date(t.dueDate) < now]. *)
Definition overdueAt (now : Z) (t : Task) : bool :=
  match dueDate t with
  | None => false
  | Some due => negb (bool_decide (status t = Done)) && (due <? now)
  end.

Definition filterOverdue (now : Z) (tasks : list Task) : list Task :=
  List.filter (overdueAt now) tasks.

Definition applyFilters (tasks : list Task) (filters : TaskFilters)
  : list Task :=
  let result := filterTasksBySearch tasks (search filters) in
  let result := filterByPriority result (f_priority filters) in
  let result := filterByCategory result (f_category filters) in
  let result := filterByStatus result (f_status filters) in
  let result :=
    sortTasks result (SortBy_as_SortField (sortBy filters))
      (sortOrder filters) in
  result.

End Core.

(** The order of code units is a total preorder, so [AsciiHost] is a host. *)
Lemma compare_units_le a b :
  AsciiHost.compare_units a b ≤ 0 ↔ a = b ∨ String_as_OT.lt a b.
Proof.
  unfold AsciiHost.compare_units.
  destruct (String.compare a b) eqn:E.
  - apply String_as_OT.cmp_eq in E. split; [auto | lia].
  - apply String_as_OT.cmp_lt in E. split; [auto | lia].
  - split; [lia |]. intros [-> | L].
    + assert (String.compare b b = Eq) as E' by by apply String_as_OT.cmp_eq.
      congruence.
    + apply String_as_OT.cmp_lt in L. unfold String_as_OT.cmp in L.
      congruence.
Qed.

Lemma compare_units_sym a b :
  AsciiHost.compare_units a b < 0 ↔ 0 < AsciiHost.compare_units b a.
Proof.
  unfold AsciiHost.compare_units. rewrite (String.compare_antisym a b).
  destruct (String.compare b a); simpl; lia.
Qed.

Lemma compare_units_trans a b c :
  AsciiHost.compare_units a b ≤ 0 → AsciiHost.compare_units b c ≤ 0 →
  AsciiHost.compare_units a c ≤ 0.
Proof.
  rewrite !compare_units_le. intros [-> | L1] [-> | L2]; auto.
  right. eapply String_as_OT.lt_trans; eauto.
Qed.

#[global] Instance ascii_host : JSStrings := {|
  toLowerCase := AsciiHost.lower;
  trim := AsciiHost.trim_both;
  localeCompare := AsciiHost.compare_units;
  toLowerCase_empty := eq_refl;
  trim_empty := eq_refl;
  localeCompare_sym := compare_units_sym;
  localeCompare_trans := compare_units_trans;
|}.

(** ** Arrays as objects of the heap

    The functions above say what each call computes from the contents of its
    argument.  In the program the arguments are references: [filter] and the
    spread [[...tasks]] allocate a new array, [sort] and [reverse] rearrange
    the array they are called on and return it, and a filter that has nothing
    to do returns the very array it was given.  The module below repeats the
    pipeline at that level, over a store of arrays.  Task records are never
    written to by the pipeline, so an array holds them by value. *)

Module Arrays.

Abbreviation ref := positive.
Abbreviation store := (gmap positive (list Task)).

(** A computation that reads and writes the store; [None] is a read through
    a reference that was never allocated, which no run of the program does. *)
Definition M (A : Type) : Type := store → option (A * store).

Definition ret {A} (a : A) : M A := λ σ, Some (a, σ).

Definition bind {A B} (m : M A) (k : A → M B) : M B :=
  λ σ, match m σ with Some (a, σ') => k a σ' | None => None end.

Notation "'let*' x := m 'in' k" := (bind m (λ x, k))
  (at level 10, x name, m at level 100, k at level 200).

Definition contents (r : ref) : M (list Task) :=
  λ σ, match σ !! r with Some l => Some (l, σ) | None => None end.

Definition alloc (l : list Task) : M ref :=
  λ σ, let r := fresh (dom σ) in Some (r, <[r := l]> σ).

Definition assign (r : ref) (l : list Task) : M unit :=
  λ σ, match σ !! r with Some _ => Some (tt, <[r := l]> σ) | None => None end.

(** [tasks.filter(p)]. *)
Definition filter (p : Task → bool) (tasks : ref) : M ref :=
  let* l := contents tasks in alloc (List.filter p l).

(** [[...tasks]]. *)
Definition spread (tasks : ref) : M ref :=
  let* l := contents tasks in alloc l.

(** [tasks.sort(comparator)], in place. *)
Definition sort (comparator : Task → Task → Z) (tasks : ref) : M ref :=
  let* l := contents tasks in
  let* _ := assign tasks (Array_sort comparator l) in
  ret tasks.

(** [tasks.reverse()], in place. *)
Definition reverse (tasks : ref) : M ref :=
  let* l := contents tasks in
  let* _ := assign tasks (rev l) in
  ret tasks.

Section Pipeline.
Context `{JSStrings}.

Definition filterTasksBySearch (tasks : ref) (query : string) : M ref :=
  let q := toLowerCase (trim query) in
  if decide (q = "") then ret tasks else filter (matchesSearch q) tasks.

Definition filterByPriority (tasks : ref) (p : OrAll Priority) : M ref :=
  match p with
  | All => ret tasks
  | Exactly p => filter (λ t, bool_decide (priority t = p)) tasks
  end.

Definition filterByCategory (tasks : ref) (c : OrAll Category) : M ref :=
  match c with
  | All => ret tasks
  | Exactly c => filter (λ t, bool_decide (category t = c)) tasks
  end.

Definition filterByStatus (tasks : ref) (s : OrAll Status) : M ref :=
  match s with
  | All => ret tasks
  | Exactly s => filter (λ t, bool_decide (status t = s)) tasks
  end.

Definition filterOverdue (now : Z) (tasks : ref) : M ref :=
  filter (overdueAt now) tasks.

Definition sortTasks (tasks : ref) (field : SortField) (order : SortOrder)
  : M ref :=
  let comparator := COMPARATORS field in
  let* copy := spread tasks in
  let* sorted := sort comparator copy in
  match order with desc => reverse sorted | asc => ret sorted end.

Definition multiSort (tasks : ref) (criteria : list SortCriteria) : M ref :=
  let* copy := spread tasks in
  sort (multiSort_compare criteria) copy.

Definition applyFilters (tasks : ref) (filters : TaskFilters) : M ref :=
  let* result := filterTasksBySearch tasks (search filters) in
  let* result := filterByPriority result (f_priority filters) in
  let* result := filterByCategory result (f_category filters) in
  let* result := filterByStatus result (f_status filters) in
  let* result :=
    sortTasks result (SortBy_as_SortField (sortBy filters))
      (sortOrder filters) in
  ret result.

End Pipeline.

(** [m], run in [σ], ends with a reference to an array holding [out], and
    has left every array of [σ] as it was. *)
Definition yields (m : M ref) (σ : store) (out : list Task) : Prop :=
  ∃ r σ', m σ = Some (r, σ') ∧ σ' !! r = Some out ∧ σ ⊆ σ'.

(** The same, and the array returned is not one of [σ]: it was allocated by
    the call. *)
Definition yields_new (m : M ref) (σ : store) (out : list Task) : Prop :=
  ∃ r σ', m σ = Some (r, σ') ∧ σ' !! r = Some out ∧ σ ⊆ σ' ∧ σ !! r = None.

End Arrays.

(** ** Task objects and [updateTask]

    [updateTask] builds its result with object spread, which copies whatever
    own properties its operands have; here a task is the finite map from
    property names to values that the object literal manipulates. *)

Module Objects.

Inductive Value :=
  | VUndefined
  | VString (s : string)
  | VTime (t : Z)            (* an ISO 8601 string, by the instant it denotes *)
  | VStrings (l : list string).

Abbreviation Obj := (gmap string Value).
Abbreviation ref := positive.
Abbreviation heap := (gmap positive (gmap string Value)).

(** [o.k] *)
Definition get (o : Obj) (k : string) : Value := default VUndefined (o !! k).

(** The object literal of [updateTask]; in [{ ...task, ...updates }] a
    property of [updates] overrides the one of [task]. *)
Definition updateTask_literal (now : Z) (task updates : Obj) : Obj :=
  <["updatedAt" := VTime now]>
    (<["createdAt" := get task "createdAt"]>
       (<["id" := get task "id"]> (updates ∪ task))).

(** The call [updateTask(task, updates)] on two references: it reads both
    objects and allocates the result. *)
Definition updateTask (now : Z) (task updates : ref) (h : heap)
  : option (ref * heap) :=
  match h !! task, h !! updates with
  | Some t, Some u =>
      let r := fresh (dom h) in
      Some (r, <[r := updateTask_literal now t u]> h)
  | _, _ => None
  end.

(** [o] with the property [k], when it has a value. *)
Definition optional (k : string) (v : option Value) (o : Obj) : Obj :=
  match v with Some v => <[k := v]> o | None => o end.

(** A [Task] record as the object it stands for. *)
Definition Task_object (t : Task) : Obj :=
  optional "description" (VString <$> description t)
    (optional "dueDate" (VTime <$> dueDate t)
       (optional "assignee" (VString <$> assignee t)
          {[ "id" := VString (id t);
             "title" := VString (title t);
             "priority" := VString (Priority_label (priority t));
             "category" := VString (Category_label (category t));
             "status" := VString (Status_label (status t));
             "createdAt" := VTime (createdAt t);
             "updatedAt" := VTime (updatedAt t);
             "tags" := VStrings (tags t) ]})).

End Objects.

(** ** Fixtures of the test suite ([tests/unit/sorting.test.ts]) *)

Module Fixtures.

(** [BASE], with the overrides of [t({...})]. *)
Definition t (id title : string) (p : Priority) (created : Z)
  (due : option Z) : Task :=
  {| id := id; title := title; description := None; priority := p;
     category := Work; status := Todo; dueDate := due;
     createdAt := created; updatedAt := 1704067200000;
     tags := []; assignee := None |}.

Definition Jan01 : Z := 1704067200000.
Definition Jan02 : Z := 1704153600000.
Definition Jan03 : Z := 1704240000000.
Definition Jan15 : Z := 1705276800000.
Definition Mar01 : Z := 1709251200000.

(** The two tasks of the pipeline scenario
    ([tests/unit/filtering.test.ts], tasks 1 and 3). *)
Definition lowTodo : Task :=
  {| id := "1"; title := "Base task"; description := None; priority := Low;
     category := Work; status := Todo; dueDate := None;
     createdAt := 1704067200000; updatedAt := 1704067200000;
     tags := []; assignee := None |}.

Definition criticalDone : Task :=
  {| id := "3"; title := "Base task"; description := None;
     priority := Critical; category := Shopping; status := Done;
     dueDate := Some 1577836800000;
     createdAt := 1704067200000; updatedAt := 1704067200000;
     tags := []; assignee := None |}.

Definition zebra : Task := t "1" "Zebra task" Low Jan01 (Some Mar01).
Definition apple : Task := t "2" "Apple task" Critical Jan03 (Some Jan15).
Definition mango : Task := t "3" "Mango task" High Jan02 None.

Definition TASKS : list Task := [zebra; apple; mango].

(** The pair of ['uses the second criterion as a tiebreaker']. *)
Definition zap : Task := t "a" "Zap" High Jan01 None.
Definition alpha : Task := t "b" "Alpha" High Jan01 None.

(** [BASE_TASK] of [tests/unit/taskUtils.test.ts]. *)
Definition BASE_TASK : Task :=
  {| id := "task_test_001"; title := "Write documentation";
     description := Some "Describe the testing strategy.";
     priority := Medium; category := Work; status := Todo; dueDate := None;
     createdAt := 1704067200000; updatedAt := 1704067200000;
     tags := ["docs"]; assignee := None |}.

(** [TASKS] of [tests/unit/filtering.test.ts]; tasks 1 and 3 are [lowTodo]
    and [criticalDone]. *)
Definition highInProgress : Task :=
  {| id := "2"; title := "Base task"; description := None; priority := High;
     category := Personal; status := InProgress;
     dueDate := Some 1577836800000;
     createdAt := 1704067200000; updatedAt := 1704067200000;
     tags := []; assignee := None |}.

Definition mediumTodo : Task :=
  {| id := "4"; title := "Base task"; description := None;
     priority := Medium; category := Health; status := Todo;
     dueDate := None;
     createdAt := 1704067200000; updatedAt := 1704067200000;
     tags := []; assignee := None |}.

Definition FILTER_TASKS : list Task :=
  [lowTodo; highInProgress; criticalDone; mediumTodo].

(** The frozen clock of the statistics tests, 2024-06-15T12:00:00.000Z. *)
Definition FIXED_NOW : Z := 1718452800000.

(** [tasks] of [describe('calculateStats')]. *)
Definition STATS_TASKS : list Task :=
  [ {| id := "1"; title := "Write documentation";
       description := Some "Describe the testing strategy.";
       priority := Low; category := Work; status := Done; dueDate := None;
       createdAt := 1704067200000; updatedAt := 1704067200000;
       tags := ["docs"]; assignee := None |};
    {| id := "2"; title := "Write documentation";
       description := Some "Describe the testing strategy.";
       priority := High; category := Personal; status := InProgress;
       dueDate := Some 1704067200000;
       createdAt := 1704067200000; updatedAt := 1704067200000;
       tags := ["docs"]; assignee := None |};
    {| id := "3"; title := "Write documentation";
       description := Some "Describe the testing strategy.";
       priority := Medium; category := Work; status := Todo; dueDate := None;
       createdAt := 1704067200000; updatedAt := 1704067200000;
       tags := ["docs"]; assignee := None |} ].

End Fixtures.

(** ** Orders on task lists *)

(** [before R l]: whenever [x] stands before [y] in [l], [R x y]. *)
Abbreviation before := StronglySorted.

Definition highestPriorityFirst : list Task → Prop :=
  before (λ a b,
    getPriorityWeight (priority b) ≤ getPriorityWeight (priority a)).

Definition lowestPriorityFirst : list Task → Prop :=
  before (λ a b,
    getPriorityWeight (priority a) ≤ getPriorityWeight (priority b)).

(** [a] may stand before [b] when dated tasks go first, earliest first. *)
Definition datedFirstEarliestFirst (a b : Task) : Prop :=
  match dueDate a, dueDate b with
  | Some da, Some db => da ≤ db
  | Some _, None => True
  | None, Some _ => False
  | None, None => True
  end.

(** The comparator of [multiSort] as the specification words it: the result
    of a criterion is negated for ['asc'] and kept for ['desc']. *)
Fixpoint multiSort_compare_as_specified `{JSStrings}
  (criteria : list SortCriteria) (a b : Task) : Z :=
  match criteria with
  | [] => 0
  | c :: rest =>
      let cmp := COMPARATORS (field c) a b in
      if decide (cmp ≠ 0)
      then match order c with asc => - cmp | desc => cmp end
      else multiSort_compare_as_specified rest a b
  end.

(** ** What a stable sort is

    [Array_sort] is one algorithm; an engine is free to use another, as long
    as the outcome is the stable sort.  To say what that outcome is, tag each
    element with its position in the input: the stable sort of [l] by [cmp]
    is the arrangement of the tagged elements in which [p] stands before [q]
    only if [p] does not compare after [q] and, when the two compare equal,
    [p] came first in the input. *)

Fixpoint tagged {A} (n : nat) (l : list A) : list (nat * A) :=
  match l with
  | [] => []
  | x :: l' => (n, x) :: tagged (S n) l'
  end.

Definition stable_le {A} (cmp : A → A → Z) (p q : nat * A) : Prop :=
  cmp p.2 q.2 ≤ 0 ∧ (cmp q.2 p.2 ≤ 0 → (p.1 ≤ q.1)%nat).

Definition stable_sort_of {A} (cmp : A → A → Z) (l l' : list A) : Prop :=
  ∃ tl, tl ≡ₚ tagged 0 l ∧ StronglySorted (stable_le cmp) tl ∧ l' = tl.*2.

(** ** Counting *)

(** The number of tasks of a list that satisfy [p]. *)
Definition countIf (p : Task → bool) (tasks : list Task) : Z :=
  Z.of_nat (length (List.filter p tasks)).

(** [{ ...task, status }]. *)
Definition withStatus (s : Status) (task : Task) : Task :=
  {| id := id task; title := title task; description := description task;
     priority := priority task; category := category task; status := s;
     dueDate := dueDate task; createdAt := createdAt task;
     updatedAt := updatedAt task; tags := tags task;
     assignee := assignee task |}.

(** ** The pipeline as one selection

    The four filter stages of [applyFilters], named so that they can be
    composed in any order, and the single predicate they amount to. *)

Inductive Stage :=
  | StageSearch (query : string)
  | StagePriority (p : OrAll Priority)
  | StageCategory (c : OrAll Category)
  | StageStatus (s : OrAll Status)
  | StageOverdue (now : Z).

Definition runStage `{JSStrings} (stage : Stage) (tasks : list Task)
  : list Task :=
  match stage with
  | StageSearch query => filterTasksBySearch tasks query
  | StagePriority p => filterByPriority tasks p
  | StageCategory c => filterByCategory tasks c
  | StageStatus s => filterByStatus tasks s
  | StageOverdue now => filterOverdue now tasks
  end.

(** [v] satisfies the constraint [f]: ['all'], or exactly that value. *)
Definition admits {A} `{EqDecision A} (f : OrAll A) (v : A) : bool :=
  match f with All => true | Exactly a => bool_decide (v = a) end.

(** The task is one that [applyFilters] keeps. *)
Definition passesFilters `{JSStrings} (filters : TaskFilters) (task : Task)
  : bool :=
  let q := toLowerCase (trim (search filters)) in
  (bool_decide (q = "") || matchesSearch q task)
  && admits (f_priority filters) (priority task)
  && admits (f_category filters) (category task)
  && admits (f_status filters) (status task).

(** ** What the stages of the pipeline select *)

(** [q] occurs in [s] as a contiguous substring. *)
Definition occursIn (q s : string) : Prop :=
  ∃ pre post, s = (pre ++ q ++ post)%string.

(** The task mentions [q] in its title, in its description or in one of its
    tags, letter case apart ([q] is in lower case already). *)
Definition mentions `{JSStrings} (q : string) (task : Task) : Prop :=
  occursIn q (toLowerCase (title task)) ∨
  (∃ d, description task = Some d ∧ occursIn q (toLowerCase d)) ∨
  (∃ tag, tag ∈ tags task ∧ occursIn q (toLowerCase tag)).

(** [l'] holds exactly the elements of [l] that satisfy [P], as often as and
    in the order in which they stand in [l]. *)
Definition selects {A} (P : A → Prop) (l l' : list A) : Prop :=
  ∃ keep : A → bool, (∀ x, keep x = true ↔ P x) ∧ l' = List.filter keep l.

(** ** Grouping ([lib/taskUtils.ts]) *)

(** [groupTasksByCategory]: the callback of [reduce] appends the task to the
    array under its category, creating the array when the key is new
    ([(acc[task.category] ??= []).push(task)]). *)
Definition groupTasksByCategory (tasks : list Task)
  : gmap Category (list Task) :=
  fold_left
    (λ acc task,
       <[category task := (default [] (acc !! category task) ++ [task])%list]>
         acc)
    tasks ∅.

(** [groupTasksByStatus]: the three arrays exist from the start and
    [groups[task.status].push(task)] appends to one of them. *)
Definition groupTasksByStatus (tasks : list Task) : gmap Status (list Task) :=
  fold_left
    (λ groups task,
       alter (λ group, (group ++ [task])%list) (status task) groups)
    tasks
    {[ Todo := []; InProgress := []; Done := [] ]}.

(** ** CRUD helpers ([lib/taskUtils.ts]) on typed records

    The helpers below take and return [Task] values as TypeScript types
    them.  [updateTask] is the typed reading of the object literal modelled
    in [Objects]; [updateTask_agrees] relates the two. *)

(** [NEXT_STATUS]. *)
Definition NEXT_STATUS (s : Status) : Status :=
  match s with Todo => InProgress | InProgress => Done | Done => Todo end.

(** [Partial<Task>]: a field is [None] when the payload has no such
    property.  The optional fields of [Task] may be present and undefined,
    [Some None]. *)
Record TaskUpdate := mkUpdate {
  u_id : option string;
  u_title : option string;
  u_description : option (option string);
  u_priority : option Priority;
  u_category : option Category;
  u_status : option Status;
  u_dueDate : option (option Z);
  u_createdAt : option Z;
  u_updatedAt : option Z;
  u_tags : option (list string);
  u_assignee : option (option string);
}.

(** The payload [{}]. *)
Definition noUpdate : TaskUpdate :=
  {| u_id := None; u_title := None; u_description := None;
     u_priority := None; u_category := None; u_status := None;
     u_dueDate := None; u_createdAt := None; u_updatedAt := None;
     u_tags := None; u_assignee := None |}.

Definition updateTask (now : Z) (task : Task) (updates : TaskUpdate) : Task :=
  {| id := id task;
     title := default (title task) (u_title updates);
     description := default (description task) (u_description updates);
     priority := default (priority task) (u_priority updates);
     category := default (category task) (u_category updates);
     status := default (status task) (u_status updates);
     dueDate := default (dueDate task) (u_dueDate updates);
     createdAt := createdAt task;
     updatedAt := now;
     tags := default (tags task) (u_tags updates);
     assignee := default (assignee task) (u_assignee updates) |}.

(** [updateTask(task, { status: NEXT_STATUS[task.status] })]. *)
Definition toggleTaskStatus (now : Z) (task : Task) : Task :=
  updateTask now task
    {| u_id := None; u_title := None; u_description := None;
       u_priority := None; u_category := None;
       u_status := Some (NEXT_STATUS (status task));
       u_dueDate := None; u_createdAt := None; u_updatedAt := None;
       u_tags := None; u_assignee := None |}.

(** An integer in a template literal: its decimal digits. *)
Definition decimal (n : Z) : string := NilZero.string_of_int (Z.to_int n).

(** [generateId]; [random] stands for
    [Math.random().toString(36).slice(2, 11)]. *)
Definition generateId (now : Z) (random : string) : string :=
  ("task_" ++ decimal now ++ "_" ++ random)%string.

(** [CreateTaskPayload]. *)
Record CreateTaskPayload := mkPayload {
  p_title : string;
  p_description : option string;
  p_priority : option Priority;
  p_category : option Category;
  p_dueDate : option Z;
  p_tags : option (list string);
  p_assignee : option string;
}.

(** [createTask] reads the clock twice: [now] for the two timestamps and,
    inside [generateId], [idNow] for the id. *)
Definition createTask `{JSStrings} (now idNow : Z) (random : string)
  (data : CreateTaskPayload) : Task :=
  {| id := generateId idNow random;
     title := trim (p_title data);
     description := trim <$> p_description data;
     priority := default Medium (p_priority data);
     category := default Other (p_category data);
     status := Todo;
     dueDate := p_dueDate data;
     createdAt := now;
     updatedAt := now;
     tags := default [] (p_tags data);
     assignee := p_assignee data |}.

Definition duplicateTask (now idNow : Z) (random : string) (task : Task)
  : Task :=
  {| id := generateId idNow random;
     title := ("Copy of " ++ title task)%string;
     description := description task;
     priority := priority task;
     category := category task;
     status := Todo;
     dueDate := dueDate task;
     createdAt := now;
     updatedAt := now;
     tags := tags task;
     assignee := assignee task |}.

(** A typed payload as the object it stands for. *)
Definition Update_object (u : TaskUpdate) : gmap string Objects.Value :=
  Objects.optional "id" (Objects.VString <$> u_id u)
    (Objects.optional "title" (Objects.VString <$> u_title u)
    (Objects.optional "description"
       (from_option Objects.VString Objects.VUndefined <$> u_description u)
    (Objects.optional "priority"
       (Objects.VString ∘ Priority_label <$> u_priority u)
    (Objects.optional "category"
       (Objects.VString ∘ Category_label <$> u_category u)
    (Objects.optional "status"
       (Objects.VString ∘ Status_label <$> u_status u)
    (Objects.optional "dueDate"
       (from_option Objects.VTime Objects.VUndefined <$> u_dueDate u)
    (Objects.optional "createdAt" (Objects.VTime <$> u_createdAt u)
    (Objects.optional "updatedAt" (Objects.VTime <$> u_updatedAt u)
    (Objects.optional "tags" (Objects.VStrings <$> u_tags u)
    (Objects.optional "assignee"
       (from_option Objects.VString Objects.VUndefined <$> u_assignee u)
       ∅)))))))))).

(** No underscore among the characters of a string. *)
Fixpoint no_underscore (s : string) : Prop :=
  match s with
  | EmptyString => True
  | String c s' => c ≠ "_"%char ∧ no_underscore s'
  end.

(** Every character of the string satisfies [p]. *)
Fixpoint all_chars (p : ascii → bool) (s : string) : bool :=
  match s with
  | EmptyString => true
  | String c s' => p c && all_chars p s'
  end.

(** [[a-z0-9_]]. *)
Definition url_safe (c : ascii) : bool :=
  let n := N_of_ascii c in
  ((97 <=? n) && (n <=? 122) || (48 <=? n) && (n <=? 57) || (n =? 95))%N.

(** A character of the ASCII range. *)
Definition is_ascii (c : ascii) : bool := (N_of_ascii c <? 128)%N.

(** The invariant of the data model on the two timestamps. *)
Definition timestamps_ordered (task : Task) : Prop :=
  createdAt task ≤ updatedAt task.

(** ** [hooks/useTasks.ts]: the state updaters

    Each mutation of the hook hands [setTasks] a function from the previous
    array to the next one; these are the functions. *)

(** [Array.prototype.findIndex]. *)
Fixpoint findIndex {A} (p : A → bool) (l : list A) : Z :=
  match l with
  | [] => -1
  | x :: l' =>
      if p x then 0
      else let i := findIndex p l' in if i <? 0 then -1 else i + 1
  end.

(** [next.splice(start, 0, item)] on the contents of [next]: a negative
    [start] counts from the end, and the position is clamped to the array. *)
Definition splice_insert {A} (start : Z) (item : A) (l : list A) : list A :=
  let len := Z.of_nat (length l) in
  let actual :=
    if start <? 0 then Z.max (len + start) 0 else Z.min start len in
  (take (Z.to_nat actual) l ++ item :: drop (Z.to_nat actual) l)%list.

Definition addTask (newTask : Task) (prev : list Task) : list Task :=
  newTask :: prev.

Definition editTask (now : Z) (taskId : string) (updates : TaskUpdate)
  (prev : list Task) : list Task :=
  map (λ t, if decide (id t = taskId) then updateTask now t updates else t)
    prev.

Definition removeTask (taskId : string) (prev : list Task) : list Task :=
  List.filter (λ t, bool_decide (id t ≠ taskId)) prev.

(** [duplicateTaskById]: [tasks] is the array the callback closed over,
    [prev] the one [setTasks] hands to the updater.  The result is the value
    returned ([None] for [null]) and the next array. *)
Definition duplicateTaskById (now idNow : Z) (random : string)
  (taskId : string) (tasks prev : list Task) : option Task * list Task :=
  match List.find (λ t, bool_decide (id t = taskId)) tasks with
  | None => (None, prev)
  | Some original =>
      let copy := duplicateTask now idNow random original in
      let index := findIndex (λ t, bool_decide (id t = taskId)) prev in
      (Some copy, splice_insert (index + 1) copy prev)
  end.

Definition toggleStatus (now : Z) (taskId : string) (prev : list Task)
  : list Task :=
  map (λ t, if decide (id t = taskId) then toggleTaskStatus now t else t)
    prev.

Definition clearAllTasks : list Task := [].

(** ** [app/api/tasks/[id]/route.ts]: the handlers on the shared store *)

(** The JSON body and status handed to [NextResponse.json]. *)
Record Response (A : Type) := mkResponse {
  r_status : Z;
  r_data : option A;
  r_error : option string;
  r_message : option string;
}.
Arguments mkResponse {A} _ _ _ _.
Arguments r_status {A} _.
Arguments r_data {A} _.
Arguments r_error {A} _.
Arguments r_message {A} _.

(** What a handler ends with: the response it resolves to, or the exception
    it is rejected with. *)
Inductive Outcome (A : Type) :=
  | Responds (response : Response A)
  | Throws (error : string).
Arguments Responds {A} _.
Arguments Throws {A} _.

(** [setStore(tasks)]: [require('../route').taskStore = tasks] assigns to an
    export of another module.  To its importers an export is a read-only
    binding, so the assignment throws a [TypeError] and [taskStore] keeps the
    value it had.  The result is the exception, if there is one, and the
    store afterwards. *)
Definition setStore (tasks store : list Task) : option string * list Task :=
  (Some "TypeError", store).

(** [PATCH]; [body] is [None] when [req.json()] throws. *)
Definition PATCH (now : Z) (store : list Task) (paramsId : string)
  (body : option TaskUpdate) : Outcome Task * list Task :=
  match List.find (λ t, bool_decide (id t = paramsId)) store with
  | None =>
      (Responds (mkResponse 404 None (Some "Task not found.") None), store)
  | Some existing =>
      match body with
      | None =>
          (Responds (mkResponse 400 None (Some "Invalid JSON body.") None),
           store)
      | Some body =>
          let updated := updateTask now existing body in
          match
            setStore
              (map (λ t, if decide (id t = paramsId) then updated else t)
                 store)
              store
          with
          | (Some error, store') => (Throws error, store')
          | (None, store') =>
              (Responds (mkResponse 200 (Some updated) None None), store')
          end
      end
  end.

(** [DELETE]. *)
Definition DELETE (store : list Task) (paramsId : string)
  : Outcome unit * list Task :=
  if existsb (λ t, bool_decide (id t = paramsId)) store
  then
    match
      setStore (List.filter (λ t, bool_decide (id t ≠ paramsId)) store) store
    with
    | (Some error, store') => (Throws error, store')
    | (None, store') =>
        (Responds (mkResponse 200 None None (Some "Task deleted.")), store')
    end
  else (Responds (mkResponse 404 None (Some "Task not found.") None), store).

(** ** [hooks/useFilter.ts]: the updaters of the filter state *)

#[global] Instance OrAll_eq_dec {A} `{EqDecision A} : EqDecision (OrAll A).
Proof. solve_decision. Defined.

Definition setSearch (search : string) (f : TaskFilters) : TaskFilters :=
  {| search := search; f_priority := f_priority f;
     f_category := f_category f; f_status := f_status f;
     sortBy := sortBy f; sortOrder := sortOrder f |}.

Definition setPriority (p : OrAll Priority) (f : TaskFilters) : TaskFilters :=
  {| search := search f; f_priority := p;
     f_category := f_category f; f_status := f_status f;
     sortBy := sortBy f; sortOrder := sortOrder f |}.

Definition setCategory (c : OrAll Category) (f : TaskFilters) : TaskFilters :=
  {| search := search f; f_priority := f_priority f;
     f_category := c; f_status := f_status f;
     sortBy := sortBy f; sortOrder := sortOrder f |}.

Definition setStatus (s : OrAll Status) (f : TaskFilters) : TaskFilters :=
  {| search := search f; f_priority := f_priority f;
     f_category := f_category f; f_status := s;
     sortBy := sortBy f; sortOrder := sortOrder f |}.

Definition setSortBy (field : SortBy) (f : TaskFilters) : TaskFilters :=
  {| search := search f; f_priority := f_priority f;
     f_category := f_category f; f_status := f_status f;
     sortBy := field; sortOrder := sortOrder f |}.

Definition setSortOrder (order : SortOrder) (f : TaskFilters) : TaskFilters :=
  {| search := search f; f_priority := f_priority f;
     f_category := f_category f; f_status := f_status f;
     sortBy := sortBy f; sortOrder := order |}.

Definition toggleSortOrder (f : TaskFilters) : TaskFilters :=
  {| search := search f; f_priority := f_priority f;
     f_category := f_category f; f_status := f_status f;
     sortBy := sortBy f;
     sortOrder := match sortOrder f with asc => desc | desc => asc end |}.

Definition resetFilters : TaskFilters := DEFAULT_FILTERS.

Definition isFiltered (filters : TaskFilters) : bool :=
  bool_decide (search filters ≠ search DEFAULT_FILTERS)
  || bool_decide (f_priority filters ≠ f_priority DEFAULT_FILTERS)
  || bool_decide (f_category filters ≠ f_category DEFAULT_FILTERS)
  || bool_decide (f_status filters ≠ f_status DEFAULT_FILTERS).

(** The two properties of the task list that the data model takes for
    granted: ids are unique and no task is updated before it is created. *)
Definition store_ok (l : list Task) : Prop :=
  NoDup (id <$> l) ∧ Forall timestamps_ordered l.

(** ** [lib/validation.ts] and the predicates of [lib/dateUtils.ts]

    The validators see the payload before it is typed: every field is the
    string (or array of strings) of the request, [None] for [undefined] and
    [null].  [length] counts the code units of a string. *)

Definition VALID_PRIORITIES : list string := ["low"; "medium"; "high"; "critical"].
Definition VALID_CATEGORIES : list string :=
  ["work"; "personal"; "shopping"; "health"; "other"].

Definition TITLE_MIN_LENGTH : Z := 3.
Definition TITLE_MAX_LENGTH : Z := 120.
Definition DESCRIPTION_MAX_LENGTH : Z := 1000.
Definition MAX_TAGS : Z := 10.
Definition TAG_MAX_LENGTH : Z := 30.

Record ValidationResult := mkResult { valid : bool; errors : list string }.

Definition pass : ValidationResult := {| valid := true; errors := [] |}.

Definition fail (errors : list string) : ValidationResult :=
  {| valid := false; errors := errors |}.

(** [s.length]. *)
Definition String_length (s : string) : Z := Z.of_nat (String.length s).

(** [Array.prototype.join]. *)
Fixpoint join (sep : string) (l : list string) : string :=
  match l with
  | [] => ""
  | [x] => x
  | x :: rest => (x ++ sep ++ join sep rest)%string
  end.

(** The double quote of the message about a long tag. *)
Definition dquote : string := String (ascii_of_nat 34) EmptyString.

(** The partial payload of a request. *)
Record RawPayload := mkRaw {
  raw_title : option string;
  raw_description : option string;
  raw_priority : option string;
  raw_category : option string;
  raw_dueDate : option string;
  raw_tags : option (list string);
}.

Section Validation.
Context `{JSStrings}.

(** [new Date(s).getTime()], [None] for [NaN]. *)
Variable Date_parse : string → option Z.

Definition validateTitle (title : option string) : ValidationResult :=
  match title with
  | None => fail ["Title is required."]
  | Some title =>
      if bool_decide (title = "") || bool_decide (trim title = "")
      then fail ["Title is required."]
      else
        let trimmed := trim title in
        if String_length trimmed <? TITLE_MIN_LENGTH
        then fail ["Title must be at least " ++ decimal TITLE_MIN_LENGTH
                   ++ " characters."]
        else if TITLE_MAX_LENGTH <? String_length trimmed
        then fail ["Title must not exceed " ++ decimal TITLE_MAX_LENGTH
                   ++ " characters."]
        else pass
  end.

Definition validateDescription (description : option string)
  : ValidationResult :=
  match description with
  | None => pass
  | Some text =>
      if bool_decide (text = "") then pass
      else if DESCRIPTION_MAX_LENGTH <? String_length text
      then fail ["Description must not exceed "
                 ++ decimal DESCRIPTION_MAX_LENGTH ++ " characters."]
      else pass
  end.

Definition validatePriority (priority : option string) : ValidationResult :=
  match priority with
  | None => pass
  | Some priority =>
      if bool_decide (priority = "") then pass
      else if negb (bool_decide (priority ∈ VALID_PRIORITIES))
      then fail ["Priority must be one of: " ++ join ", " VALID_PRIORITIES
                 ++ "."]
      else pass
  end.

Definition validateCategory (category : option string) : ValidationResult :=
  match category with
  | None => pass
  | Some category =>
      if bool_decide (category = "") then pass
      else if negb (bool_decide (category ∈ VALID_CATEGORIES))
      then fail ["Category must be one of: " ++ join ", " VALID_CATEGORIES
                 ++ "."]
      else pass
  end.

Definition validateDueDate (now : Z) (dueDate : option string)
  : ValidationResult :=
  match dueDate with
  | None => pass
  | Some dueDate =>
      if bool_decide (dueDate = "") then pass
      else
        match Date_parse dueDate with
        | None => fail ["Due date is not a valid date."]
        | Some parsed =>
            if parsed <? now then fail ["Due date must be in the future."]
            else pass
        end
  end.

(** The callback of [tags.forEach], from index [i] on: the messages it
    pushes. *)
Fixpoint tag_errors (i : Z) (tags : list string) : list string :=
  match tags with
  | [] => []
  | tag :: rest =>
      let pushed :=
        if bool_decide (trim tag = "")
        then ["Tag at position " ++ decimal (i + 1) ++ " is blank."]
        else if TAG_MAX_LENGTH <? String_length tag
        then ["Tag " ++ dquote ++ tag ++ dquote ++ " exceeds "
              ++ decimal TAG_MAX_LENGTH ++ " characters."]
        else [] in
      (pushed ++ tag_errors (i + 1) rest)%list
  end.

Definition validateTags (tags : option (list string)) : ValidationResult :=
  match tags with
  | None | Some [] => pass
  | Some tags =>
      if MAX_TAGS <? Z.of_nat (length tags)
      then fail ["A task may have at most " ++ decimal MAX_TAGS ++ " tags."]
      else
        let errors := tag_errors 0 tags in
        if 0 <? Z.of_nat (length errors) then fail errors else pass
  end.

Definition validateTask (now : Z) (payload : RawPayload) : ValidationResult :=
  let results :=
    [ validateTitle (raw_title payload);
      validateDescription (raw_description payload);
      validatePriority (raw_priority payload);
      validateCategory (raw_category payload);
      validateDueDate now (raw_dueDate payload);
      validateTags (raw_tags payload) ] in
  let allErrors := concat (map errors results) in
  if 0 <? Z.of_nat (length allErrors) then fail allErrors else pass.

(** [lib/dateUtils.ts]. *)
Definition isValidDate (dateStr : option string) : bool :=
  match dateStr with
  | None => false
  | Some dateStr =>
      if bool_decide (dateStr = "") then false
      else bool_decide (is_Some (Date_parse dateStr))
  end.

Definition isFutureDate (now : Z) (dateStr : string) : bool :=
  if negb (isValidDate (Some dateStr)) then false
  else match Date_parse dateStr with
       | Some date => now <? date
       | None => false
       end.

Definition isPastDate (now : Z) (dateStr : string) : bool :=
  if negb (isValidDate (Some dateStr)) then false
  else match Date_parse dateStr with
       | Some date => date <? now
       | None => false
       end.

End Validation.

(** *** Regular expressions

    [validateEmail] tests its argument against a regular expression anchored
    at both ends.  [RegExp] has the operators such an expression is built
    from and [RegExp_test] decides whether the whole string matches, by
    taking the derivative of the expression character by character. *)

Inductive RegExp :=
  | ReNever
  | ReEmpty
  | ReClass (p : ascii → bool)
  | ReSeq (r1 r2 : RegExp)
  | ReAlt (r1 r2 : RegExp)
  | ReStar (r : RegExp).

(** [r+]. *)
Definition RePlus (r : RegExp) : RegExp := ReSeq r (ReStar r).

Fixpoint nullable (r : RegExp) : bool :=
  match r with
  | ReNever => false
  | ReEmpty => true
  | ReClass _ => false
  | ReSeq r1 r2 => nullable r1 && nullable r2
  | ReAlt r1 r2 => nullable r1 || nullable r2
  | ReStar _ => true
  end.

Fixpoint derive (c : ascii) (r : RegExp) : RegExp :=
  match r with
  | ReNever | ReEmpty => ReNever
  | ReClass p => if p c then ReEmpty else ReNever
  | ReSeq r1 r2 =>
      if nullable r1 then ReAlt (ReSeq (derive c r1) r2) (derive c r2)
      else ReSeq (derive c r1) r2
  | ReAlt r1 r2 => ReAlt (derive c r1) (derive c r2)
  | ReStar r' => ReSeq (derive c r') (ReStar r')
  end.

(** [/^r$/.test(s)]. *)
Fixpoint RegExp_test (r : RegExp) (s : string) : bool :=
  match s with
  | EmptyString => nullable r
  | String c s' => RegExp_test (derive c r) s'
  end.

(** The strings that an expression matches. *)
Inductive Matches : RegExp → string → Prop :=
  | Matches_Empty : Matches ReEmpty ""
  | Matches_Class p c : p c = true → Matches (ReClass p) (String c "")
  | Matches_Seq r1 r2 s1 s2 :
      Matches r1 s1 → Matches r2 s2 → Matches (ReSeq r1 r2) (s1 ++ s2)
  | Matches_Alt_l r1 r2 s : Matches r1 s → Matches (ReAlt r1 r2) s
  | Matches_Alt_r r1 r2 s : Matches r2 s → Matches (ReAlt r1 r2) s
  | Matches_Star_nil r : Matches (ReStar r) ""
  | Matches_Star_app r s1 s2 :
      Matches r s1 → Matches (ReStar r) s2 → Matches (ReStar r) (s1 ++ s2).

Section Email.
Context `{JSStrings}.

(** The class [\s] of the host. *)
Variable white_space : ascii → bool.

(** [[^\s@]]. *)
Definition not_space_or_at (c : ascii) : bool :=
  negb (white_space c || bool_decide (c = "@"%char)).

(** [/^[^\s@]+@[^\s@]+\.[^\s@]+$/]. *)
Definition emailRegex : RegExp :=
  ReSeq (RePlus (ReClass not_space_or_at))
    (ReSeq (ReClass (λ c, bool_decide (c = "@"%char)))
       (ReSeq (RePlus (ReClass not_space_or_at))
          (ReSeq (ReClass (λ c, bool_decide (c = "."%char)))
             (RePlus (ReClass not_space_or_at))))).

Definition validateEmail (email : string) : ValidationResult :=
  if bool_decide (trim email = "") then fail ["Email is required."]
  else if negb (RegExp_test emailRegex email)
  then fail ["Email address is not valid."]
  else pass.

End Email.

(** * Properties *)

(** ** The sort of an array *)

Section ArraySort.
Context {A : Type} (cmp : A → A → Z).

Lemma sort_insert_perm x l : sort_insert cmp x l ≡ₚ x :: l.
Proof.
  induction l as [|y l IH]; simpl; [done|].
  destruct (cmp x y <=? 0); [done|].
  rewrite IH. apply Permutation_swap.
Qed.

Lemma Array_sort_perm l : Array_sort cmp l ≡ₚ l.
Proof.
  induction l as [|x l IH]; simpl; [done|].
  by rewrite sort_insert_perm, IH.
Qed.

Lemma Array_sort_length l : length (Array_sort cmp l) = length l.
Proof. by rewrite Array_sort_perm. Qed.

Hypothesis cmp_consistent : consistent cmp.

Lemma consistent_total a b : cmp a b ≤ 0 ∨ cmp b a ≤ 0.
Proof.
  destruct cmp_consistent as [Hsym _].
  destruct (Z.le_gt_cases (cmp a b) 0) as [?|Hgt]; [by left|right].
  apply Hsym in Hgt. lia.
Qed.

Lemma sort_insert_before x l :
  before (λ a b, cmp a b ≤ 0) l →
  before (λ a b, cmp a b ≤ 0) (sort_insert cmp x l).
Proof.
  destruct cmp_consistent as [_ Htrans]. pose proof consistent_total as Htot.
  induction 1 as [|y l Hl IH Hy]; simpl.
  - repeat constructor.
  - destruct (Z.leb_spec (cmp x y) 0) as [Hxy|Hxy].
    + constructor; [by constructor|].
      constructor; [done|].
      eapply Forall_impl; [exact Hy|]. intros z Hz. by eapply Htrans.
    + constructor; [done|].
      rewrite sort_insert_perm. constructor; [|done].
      destruct (Htot x y); [lia|done].
Qed.

Lemma Array_sort_before l : before (λ a b, cmp a b ≤ 0) (Array_sort cmp l).
Proof.
  induction l as [|x l IH]; simpl; [constructor|].
  by apply sort_insert_before.
Qed.

End ArraySort.

(** Consistent comparators are closed under negation and under
    lexicographic composition. *)
Section Consistent.
Context {A : Type}.
Implicit Types (k r : A → A → Z).

Lemma consistent_ext k r : (∀ a b, k a b = r a b) → consistent k → consistent r.
Proof.
  intros Heq [Hsym Htrans]. split.
  - intros a b. rewrite <- !Heq. apply Hsym.
  - intros a b c. rewrite <- !Heq. apply Htrans.
Qed.

Lemma consistent_neg k : consistent k → consistent (λ a b, - k a b).
Proof.
  intros [Hsym Htrans]. split.
  - intros a b. pose proof (Hsym a b). pose proof (Hsym b a). lia.
  - intros a b c.
    pose proof (Hsym a b). pose proof (Hsym b a). pose proof (Hsym b c).
    pose proof (Hsym c b). pose proof (Hsym a c). pose proof (Hsym c a).
    pose proof (Htrans c b a). lia.
Qed.

Lemma consistent_lex k r :
  consistent k → consistent r →
  consistent (λ a b, if decide (k a b ≠ 0) then k a b else r a b).
Proof.
  intros [Hsym Htrans] [Hsym' Htrans']. split.
  - intros a b. pose proof (Hsym a b). pose proof (Hsym b a).
    repeat case_decide; try lia. apply Hsym'.
  - intros a b c.
    pose proof (Hsym a b). pose proof (Hsym b a). pose proof (Hsym b c).
    pose proof (Hsym c b). pose proof (Hsym a c). pose proof (Hsym c a).
    pose proof (Htrans a b c). pose proof (Htrans b c a).
    pose proof (Htrans c a b). pose proof (Htrans c b a).
    repeat case_decide; try lia. apply Htrans'.
Qed.

End Consistent.

(** [Array_sort] computes the stable sort, and the stable sort is unique:
    whatever algorithm the engine runs, on a consistent comparator it
    returns [Array_sort cmp l]. *)
Section StableSort.
Context {A : Type} (cmp : A → A → Z).
Hypothesis cmp_consistent : consistent cmp.

Lemma tagged_snd n (l : list A) : (tagged n l).*2 = l.
Proof.
  revert n. induction l as [|x l IH]; intros n; csimpl; [done|].
  by rewrite IH.
Qed.

Lemma tagged_elem_of n (l : list A) i x :
  (i, x) ∈ tagged n l → (n ≤ i)%nat ∧ l !! (i - n)%nat = Some x.
Proof.
  revert n. induction l as [|y l IH]; intros n; simpl.
  - by intros ?%elem_of_nil.
  - intros [[= -> ->]|Hin]%elem_of_cons.
    + split; [lia|]. by replace (n - n)%nat with 0%nat by lia.
    + apply IH in Hin as [Hle Hl]. split; [lia|].
      by replace (i - n)%nat with (S (i - S n)) by lia.
Qed.

Lemma sort_insert_snd (x : nat * A) (tl : list (nat * A)) :
  (sort_insert (λ p q, cmp p.2 q.2) x tl).*2 = sort_insert cmp x.2 (tl.*2).
Proof.
  induction tl as [|y tl IH]; csimpl; [done|].
  destruct (cmp x.2 y.2 <=? 0); csimpl; [done|]. by rewrite IH.
Qed.

Lemma Array_sort_snd (tl : list (nat * A)) :
  (Array_sort (λ p q, cmp p.2 q.2) tl).*2 = Array_sort cmp (tl.*2).
Proof.
  induction tl as [|x tl IH]; csimpl; [done|].
  by rewrite sort_insert_snd, IH.
Qed.

Lemma sort_insert_stable n x (tl : list (nat * A)) :
  Forall (λ q, (n ≤ q.1)%nat) tl →
  StronglySorted (stable_le cmp) tl →
  StronglySorted (stable_le cmp) (sort_insert (λ p q, cmp p.2 q.2) (n, x) tl).
Proof.
  destruct cmp_consistent as [_ Htrans].
  pose proof (consistent_total cmp cmp_consistent) as Htot.
  intros Htags Hs. induction Hs as [|q tl Hs IH Hq]; simpl.
  - repeat constructor.
  - apply Forall_cons in Htags as [Hnq Htags].
    destruct (Z.leb_spec (cmp x q.2) 0) as [Hxq|Hxq].
    + constructor; [by constructor|]. constructor; [by split|].
      rewrite Forall_forall in Hq, Htags. apply Forall_forall.
      intros z Hz. split; simpl.
      * eapply Htrans; [exact Hxq|]. by apply Hq.
      * intros _. by apply Htags.
    + constructor; [by apply IH|].
      rewrite sort_insert_perm. constructor; [|done].
      split; simpl; [|lia]. destruct (Htot x q.2); [lia|done].
Qed.

Lemma Array_sort_tagged_stable n (l : list A) :
  StronglySorted (stable_le cmp) (Array_sort (λ p q, cmp p.2 q.2) (tagged n l)).
Proof.
  revert n. induction l as [|x l IH]; intros n; simpl; [constructor|].
  apply sort_insert_stable; [|apply IH].
  rewrite Array_sort_perm. apply Forall_forall. intros [i y] Hin.
  apply tagged_elem_of in Hin as [Hle _]. simpl. lia.
Qed.

Lemma Array_sort_stable (l : list A) : stable_sort_of cmp l (Array_sort cmp l).
Proof.
  exists (Array_sort (λ p q, cmp p.2 q.2) (tagged 0 l)). split_and!.
  - apply Array_sort_perm.
  - apply Array_sort_tagged_stable.
  - by rewrite Array_sort_snd, tagged_snd.
Qed.

Lemma stable_sort_unique (l l1 l2 : list A) :
  stable_sort_of cmp l l1 → stable_sort_of cmp l l2 → l1 = l2.
Proof.
  intros (tl1 & Hp1 & Hs1 & ->) (tl2 & Hp2 & Hs2 & ->). f_equal.
  eapply StronglySorted_unique_strong; [|done|done|by rewrite Hp1, Hp2].
  intros [i x] [j y] Hx Hy [Hxy Hij] [Hyx Hji]. simpl in *.
  rewrite Hp1 in Hx. rewrite Hp2 in Hy.
  apply tagged_elem_of in Hx as [_ Hx]. apply tagged_elem_of in Hy as [_ Hy].
  specialize (Hij Hyx). specialize (Hji Hxy). assert (i = j) as -> by lia.
  congruence.
Qed.

Lemma stable_sort_is_Array_sort (l l' : list A) :
  stable_sort_of cmp l l' → l' = Array_sort cmp l.
Proof. intros Hl'. eapply stable_sort_unique; [done|apply Array_sort_stable]. Qed.

End StableSort.

Lemma before_rev {A} (R : A → A → Prop) l :
  before R l → before (λ a b, R b a) (rev l).
Proof.
  induction 1 as [|x l Hl IH Hx]; simpl; [constructor|].
  apply StronglySorted_app_2; [|done|repeat constructor].
  intros y z Hy Hz. apply list_elem_of_singleton in Hz as ->.
  rewrite Forall_forall in Hx. apply Hx.
  by rewrite list_elem_of_In, <- in_rev, <- list_elem_of_In in Hy.
Qed.

Lemma before_impl {A} (R R' : A → A → Prop) l :
  (∀ a b, R a b → R' a b) → before R l → before R' l.
Proof.
  intros HR. induction 1 as [|x l Hl IH Hx]; constructor; [done|].
  eapply Forall_impl; [exact Hx|]. auto.
Qed.

(** ** The comparators *)

Section Comparators.
Context `{JSStrings}.

Lemma compareByDueDate_le a b :
  compareByDueDate a b ≤ 0 ↔ datedFirstEarliestFirst a b.
Proof.
  unfold compareByDueDate, datedFirstEarliestFirst.
  destruct (dueDate a), (dueDate b); lia.
Qed.

Lemma COMPARATORS_consistent field : consistent (COMPARATORS field).
Proof.
  split.
  - intros a b. destruct field; simpl;
      unfold compareByTitle, compareByPriority, compareByCreatedAt,
        compareByDueDate;
      try apply localeCompare_sym; try lia.
    destruct (dueDate a), (dueDate b); lia.
  - intros a b c. destruct field; simpl;
      unfold compareByTitle, compareByPriority, compareByCreatedAt,
        compareByDueDate;
      try apply localeCompare_trans; try lia.
    destruct (dueDate a), (dueDate b), (dueDate c); lia.
Qed.

Lemma multiSort_compare_consistent criteria :
  consistent (multiSort_compare criteria).
Proof.
  induction criteria as [|c rest IH]; simpl.
  - split; intros; lia.
  - pose proof (COMPARATORS_consistent (field c)) as Hc.
    destruct (order c).
    + by apply consistent_lex.
    + eapply consistent_ext;
        [|apply (consistent_lex _ _ (consistent_neg _ Hc) IH)].
      intros a b. simpl. repeat case_decide; lia.
Qed.

Lemma sortTasks_desc_rev tasks field :
  sortTasks tasks field desc = rev (sortTasks tasks field asc).
Proof. reflexivity. Qed.

Lemma sortTasks_perm tasks field order : sortTasks tasks field order ≡ₚ tasks.
Proof.
  unfold sortTasks. destruct order; [|rewrite <- Permutation_rev];
    apply Array_sort_perm.
Qed.

Lemma sortTasks_asc_before tasks field :
  before (λ a b, COMPARATORS field a b ≤ 0) (sortTasks tasks field asc).
Proof. apply Array_sort_before, COMPARATORS_consistent. Qed.

Lemma sortTasks_desc_before tasks field :
  before (λ a b, COMPARATORS field b a ≤ 0) (sortTasks tasks field desc).
Proof.
  rewrite sortTasks_desc_rev.
  apply (before_rev (λ a b, COMPARATORS field a b ≤ 0)), sortTasks_asc_before.
Qed.

End Comparators.

(** ** Sort engine *)

(** What [sortTasks] computes, for every field: the tasks arranged along the
    comparator of the field for ['asc'] (their stable sort) and against it
    for ['desc'] (the same, reversed).  For priority, whose comparator puts
    the heavier weight first, this makes ['asc'] highest-priority-first and
    ['desc'] lowest-priority-first. *)
Theorem sortTasks_direction `{JSStrings} (tasks : list Task) :
  highestPriorityFirst (sortTasks tasks SortPriority asc) ∧
  lowestPriorityFirst (sortTasks tasks SortPriority desc) ∧
  ∀ field,
    sortTasks tasks field asc ≡ₚ tasks ∧
    before (λ a b, COMPARATORS field a b ≤ 0) (sortTasks tasks field asc) ∧
    stable_sort_of (COMPARATORS field) tasks (sortTasks tasks field asc) ∧
    sortTasks tasks field desc = rev (sortTasks tasks field asc) ∧
    before (λ a b, COMPARATORS field b a ≤ 0) (sortTasks tasks field desc).
Proof.
  split_and!.
  - eapply before_impl; [|apply (sortTasks_asc_before tasks SortPriority)].
    simpl. unfold compareByPriority. intros a b. lia.
  - eapply before_impl; [|apply (sortTasks_desc_before tasks SortPriority)].
    simpl. unfold compareByPriority. intros a b. lia.
  - intros field. split_and!.
    + apply sortTasks_perm.
    + apply sortTasks_asc_before.
    + apply Array_sort_stable, COMPARATORS_consistent.
    + apply sortTasks_desc_rev.
    + apply sortTasks_desc_before.
Qed.

(** C1: the code at the input of the test ['sorts by priority descending
    (critical first)'] of [tests/unit/sorting.test.ts].  The test asserts
    that the last task of [sortTasks(TASKS, 'priority', 'asc')] is the
    critical one, as the claim has it; the code returns the critical task
    first and the low one last, and with ['desc'] the other way round. *)
Lemma sortTasks_priority_asc_is_highest_first :
  sortTasks Fixtures.TASKS SortPriority asc
    = [Fixtures.apple; Fixtures.mango; Fixtures.zebra] ∧
  ¬ lowestPriorityFirst (sortTasks Fixtures.TASKS SortPriority asc) ∧
  sortTasks Fixtures.TASKS SortPriority desc
    = [Fixtures.zebra; Fixtures.mango; Fixtures.apple] ∧
  ¬ highestPriorityFirst (sortTasks Fixtures.TASKS SortPriority desc).
Proof.
  split_and!; [reflexivity | | reflexivity | ].
  - intros Hs. apply StronglySorted_inv in Hs as [_ Hs].
    apply Forall_inv in Hs. vm_compute in Hs. by apply Hs.
  - intros Hs. apply StronglySorted_inv in Hs as [_ Hs].
    apply Forall_inv in Hs. vm_compute in Hs. by apply Hs.
Qed.

(** C2, as the code has it: the comparator of [multiSort] skips the criteria
    whose comparator returns zero; the first non-zero result is returned
    unchanged for ['asc'] and negated for ['desc']; when the criteria run
    out the result is zero.  [multiSort] returns the stable sort of the
    tasks by that comparator. *)
Theorem multiSort_compare_first_nonzero `{JSStrings}
  (pre post : list SortCriteria) (c : SortCriteria) (a b : Task)
  (tasks : list Task) :
  Forall (λ c', COMPARATORS (field c') a b = 0) pre →
  multiSort_compare (pre ++ c :: post) a b =
    (let cmp := COMPARATORS (field c) a b in
     if decide (cmp ≠ 0)
     then match order c with asc => cmp | desc => - cmp end
     else multiSort_compare post a b) ∧
  multiSort_compare [] a b = 0 ∧
  multiSort tasks (pre ++ c :: post) ≡ₚ tasks ∧
  before (λ x y, multiSort_compare (pre ++ c :: post) x y ≤ 0)
    (multiSort tasks (pre ++ c :: post)) ∧
  stable_sort_of (multiSort_compare (pre ++ c :: post)) tasks
    (multiSort tasks (pre ++ c :: post)).
Proof.
  intros Hpre. split_and!.
  - induction Hpre as [|c' pre Hc' _ IH]; simpl; [done|].
    rewrite Hc'. by rewrite decide_False by auto.
  - done.
  - apply Array_sort_perm.
  - apply Array_sort_before, multiSort_compare_consistent.
  - apply Array_sort_stable, multiSort_compare_consistent.
Qed.

Lemma multiSort_compare_first_nonzero_witness :
  multiSort_compare
    [mkCriteria SortPriority asc; mkCriteria SortTitle asc]
    Fixtures.zap Fixtures.alpha = 1.
Proof.
  destruct (multiSort_compare_first_nonzero
              [mkCriteria SortPriority asc] [] (mkCriteria SortTitle asc)
              Fixtures.zap Fixtures.alpha []) as [Hcmp _].
  - repeat constructor.
  - exact Hcmp.
Defined.

(** C2, as stated, fails: for ['asc'] the comparator result is not negated.
    On the pair of the tie-break test the code puts "Alpha" first, as the
    test expects; negating for ['asc'] would put "Zap" first. *)
Lemma multiSort_asc_is_not_negated :
  let criteria := [mkCriteria SortPriority asc; mkCriteria SortTitle asc] in
  multiSort_compare criteria Fixtures.zap Fixtures.alpha = 1 ∧
  multiSort_compare_as_specified criteria Fixtures.zap Fixtures.alpha = -1 ∧
  multiSort [Fixtures.zap; Fixtures.alpha] criteria
    = [Fixtures.alpha; Fixtures.zap] ∧
  Array_sort (multiSort_compare_as_specified criteria)
    [Fixtures.zap; Fixtures.alpha] = [Fixtures.zap; Fixtures.alpha] ∧
  multiSort_compare [mkCriteria SortPriority asc] Fixtures.zebra Fixtures.apple
    = COMPARATORS SortPriority Fixtures.zebra Fixtures.apple ∧
  COMPARATORS SortPriority Fixtures.zebra Fixtures.apple = 3.
Proof. by vm_compute. Qed.

Lemma before_lookup {A} (R : A → A → Prop) l i j x y :
  before R l → l !! i = Some x → l !! j = Some y → (i < j)%nat → R x y.
Proof.
  intros Hs. revert i j.
  induction Hs as [|z l Hs IH Hall]; intros i j Hi Hj Hlt; [done|].
  destruct i as [|i], j as [|j]; try lia; simpl in Hi, Hj.
  - injection Hi as <-. apply (proj1 (Forall_forall _ _) Hall).
    by eapply list_elem_of_lookup_2.
  - apply (IH i j); [done|done|lia].
Qed.

Lemma before_position {A} (R : A → A → Prop) l i j x y :
  before R l → l !! i = Some x → l !! j = Some y →
  ¬ R y x → x ≠ y → (i < j)%nat.
Proof.
  intros Hs Hi Hj HR Hne.
  destruct (Nat.lt_trichotomy i j) as [Hlt|[->|Hgt]]; [done| |].
  - congruence.
  - destruct HR. by apply (before_lookup R l j i).
Qed.

(** C3, as the code has it: with ['asc'] the result holds the tasks of the
    input, every task with a due date stands before every task without one,
    and of two dated tasks the earlier one stands first; it is the stable
    sort of the input by [compareByDueDate].  With ['desc'] the same
    arrangement is reversed, so undated tasks come first and later dates
    before earlier ones.  The comparator returns 0 on two tasks without a
    due date. *)
Theorem sortTasks_dueDate `{JSStrings} (tasks : list Task) (a b : Task) :
  before datedFirstEarliestFirst (sortTasks tasks SortDueDate asc) ∧
  sortTasks tasks SortDueDate desc = rev (sortTasks tasks SortDueDate asc) ∧
  before (λ x y, datedFirstEarliestFirst y x)
    (sortTasks tasks SortDueDate desc) ∧
  compareByDueDate a b =
    match dueDate a, dueDate b with
    | None, None => 0
    | None, Some _ => 1
    | Some _, None => -1
    | Some da, Some db => da - db
    end ∧
  sortTasks tasks SortDueDate asc ≡ₚ tasks ∧
  sortTasks tasks SortDueDate desc ≡ₚ tasks ∧
  stable_sort_of compareByDueDate tasks (sortTasks tasks SortDueDate asc) ∧
  (∀ i j x y,
     sortTasks tasks SortDueDate asc !! i = Some x →
     sortTasks tasks SortDueDate asc !! j = Some y →
     (is_Some (dueDate x) ∧ dueDate y = None → (i < j)%nat) ∧
     (∀ dx dy, dueDate x = Some dx → dueDate y = Some dy → dx < dy →
               (i < j)%nat)) ∧
  (∀ i j x y,
     sortTasks tasks SortDueDate desc !! i = Some x →
     sortTasks tasks SortDueDate desc !! j = Some y →
     (dueDate x = None ∧ is_Some (dueDate y) → (i < j)%nat) ∧
     (∀ dx dy, dueDate x = Some dx → dueDate y = Some dy → dy < dx →
               (i < j)%nat)).
Proof.
  assert (before datedFirstEarliestFirst (sortTasks tasks SortDueDate asc))
    as Hasc.
  { eapply before_impl; [|apply (sortTasks_asc_before tasks SortDueDate)].
    intros x y. apply compareByDueDate_le. }
  assert (before (λ x y, datedFirstEarliestFirst y x)
            (sortTasks tasks SortDueDate desc)) as Hdesc.
  { eapply before_impl; [|apply (sortTasks_desc_before tasks SortDueDate)].
    intros x y. apply compareByDueDate_le. }
  split_and!; try done.
  - apply sortTasks_perm.
  - apply sortTasks_perm.
  - apply (Array_sort_stable _ (COMPARATORS_consistent SortDueDate)).
  - intros i j x y Hi Hj. split.
    + intros [[dx Hx] Hy].
      apply (before_position _ _ i j x y Hasc Hi Hj); [|congruence].
      unfold datedFirstEarliestFirst. rewrite Hx, Hy. by intros [].
    + intros dx dy Hx Hy Hlt.
      apply (before_position _ _ i j x y Hasc Hi Hj);
        [|intros ->; rewrite Hx in Hy; injection Hy as ->; lia].
      unfold datedFirstEarliestFirst. rewrite Hx, Hy. simpl. lia.
  - intros i j x y Hi Hj. split.
    + intros [Hx [dy Hy]].
      apply (before_position _ _ i j x y Hdesc Hi Hj); [|congruence].
      unfold datedFirstEarliestFirst. rewrite Hx, Hy. by intros [].
    + intros dx dy Hx Hy Hlt.
      apply (before_position _ _ i j x y Hdesc Hi Hj);
        [|intros ->; rewrite Hx in Hy; injection Hy as ->; lia].
      unfold datedFirstEarliestFirst. rewrite Hx, Hy. simpl. lia.
Qed.

(** C3, as stated, fails for ['desc']: on the list of the scenario, (due
    1 March, no due date, due 15 January), the task without a due date comes
    first. *)
Lemma sortTasks_dueDate_desc_undated_first :
  sortTasks [Fixtures.zebra; Fixtures.mango; Fixtures.apple] SortDueDate asc
    = [Fixtures.apple; Fixtures.zebra; Fixtures.mango] ∧
  sortTasks [Fixtures.zebra; Fixtures.mango; Fixtures.apple] SortDueDate desc
    = [Fixtures.mango; Fixtures.zebra; Fixtures.apple] ∧
  dueDate Fixtures.mango = None ∧
  dueDate Fixtures.zebra = Some Fixtures.Mar01 ∧
  ¬ before datedFirstEarliestFirst
      (sortTasks [Fixtures.zebra; Fixtures.mango; Fixtures.apple]
         SortDueDate desc).
Proof.
  split_and!; [reflexivity | reflexivity | reflexivity | reflexivity |].
  intros Hs. apply StronglySorted_inv in Hs as [_ Hs].
  apply Forall_inv in Hs. by vm_compute in Hs.
Qed.

(** ** Overdue detection *)

(** C4: a task is overdue exactly when it has a due date, its status is not
    done and the due date lies strictly before the current instant; the
    callback of [filterOverdue] is the same predicate.  Hence a task due at
    the current instant, a task without due date and a done task are not
    overdue, and an unfinished task due any amount earlier is. *)
Theorem isTaskOverdue_iff (now : Z) (task : Task) (tasks : list Task) :
  (isTaskOverdue now task = true ↔
     ∃ due, dueDate task = Some due ∧ status task ≠ Done ∧ due < now) ∧
  overdueAt now task = isTaskOverdue now task ∧
  filterOverdue now tasks = List.filter (isTaskOverdue now) tasks ∧
  (dueDate task = Some now → isTaskOverdue now task = false) ∧
  (dueDate task = None → isTaskOverdue now task = false) ∧
  (status task = Done → isTaskOverdue now task = false) ∧
  (∀ d, 0 < d → dueDate task = Some (now - d) → status task ≠ Done →
        isTaskOverdue now task = true).
Proof.
  assert (∀ t, overdueAt now t = isTaskOverdue now t) as Hsame.
  { intros t. unfold overdueAt, isTaskOverdue.
    destruct (dueDate t); [|done]. by case_decide; case_bool_decide. }
  unfold isTaskOverdue. split_and!.
  - destruct (dueDate task) as [due|].
    + case_decide as Hst.
      * split; [done|]. by intros (d & _ & Hne & _).
      * rewrite Z.ltb_lt. split.
        -- intros Hlt. by exists due.
        -- by intros (d & [= <-] & _ & Hlt).
    + split; [done|]. by intros (d & Hd & _).
  - apply Hsame.
  - unfold filterOverdue. induction tasks as [|t l IH]; simpl; [done|].
    by rewrite Hsame, IH.
  - intros ->. case_decide; [done|]. apply Z.ltb_irrefl.
  - by intros ->.
  - intros ->. destruct (dueDate task); [|done]. by rewrite decide_True.
  - intros d Hd -> Hst. rewrite decide_False by done. apply Z.ltb_lt. lia.
Qed.

Lemma isTaskOverdue_iff_witness :
  isTaskOverdue Fixtures.FIXED_NOW
    (Fixtures.t "1" "Write documentation" Medium Fixtures.Jan01
       (Some 1717200000000)) = true.
Proof.
  destruct (isTaskOverdue_iff Fixtures.FIXED_NOW
              (Fixtures.t "1" "Write documentation" Medium Fixtures.Jan01
                 (Some 1717200000000)) []) as [Hiff _].
  apply Hiff. exists 1717200000000.
  split; [reflexivity | split; [discriminate | reflexivity]].
Defined.

(** ** Filter stages *)

Lemma filter_sublist {A} (p : A → bool) (l : list A) :
  List.filter p l `sublist_of` l.
Proof.
  induction l as [|x l IH]; simpl; [done|].
  destruct (p x); by constructor.
Qed.

(** C10: each filter stage returns a subsequence of its input: the retained
    tasks are tasks of the input, in the order of the input, none twice. *)
Theorem filters_sublist `{JSStrings} (now : Z) (tasks : list Task)
  (query : string) (p : OrAll Priority) (c : OrAll Category)
  (s : OrAll Status) :
  filterTasksBySearch tasks query `sublist_of` tasks ∧
  filterByPriority tasks p `sublist_of` tasks ∧
  filterByCategory tasks c `sublist_of` tasks ∧
  filterByStatus tasks s `sublist_of` tasks ∧
  filterOverdue now tasks `sublist_of` tasks.
Proof.
  split_and!.
  - unfold filterTasksBySearch. case_decide; [done|apply filter_sublist].
  - destruct p; [done|apply filter_sublist].
  - destruct c; [done|apply filter_sublist].
  - destruct s; [done|apply filter_sublist].
  - apply filter_sublist.
Qed.

(** ** Statistics *)

Lemma countIf_cons p t l :
  countIf p (t :: l) = (if p t then 1 else 0) + countIf p l.
Proof. unfold countIf. simpl. destruct (p t); simpl; lia. Qed.

Lemma countIf_perm p l1 l2 : l1 ≡ₚ l2 → countIf p l1 = countIf p l2.
Proof.
  induction 1 as [|x l l' _ IH|x y l|l l' l'' _ IH1 _ IH2].
  - done.
  - by rewrite !countIf_cons, IH.
  - rewrite !countIf_cons. lia.
  - congruence.
Qed.

(** One counter record of [stats], seen through its projection [proj] and
    the key [key] under which a task is counted. *)
Section Counter.
Context `{Countable K} (now : Z).
Context (proj : TaskStats → gmap K Z) (key : Task → K).
Hypothesis proj_tally :
  ∀ stats task, proj (tally now stats task) = increment (key task) (proj stats).

Lemma fold_tally_counter tasks stats k :
  proj (fold_left (tally now) tasks stats) !! k
  = (λ n, n + countIf (λ t, bool_decide (key t = k)) tasks) <$> proj stats !! k.
Proof.
  revert stats. induction tasks as [|t l IH]; intros stats; simpl.
  - destruct (proj stats !! k); simpl; [f_equal; unfold countIf; simpl; lia|done].
  - rewrite IH, proj_tally, countIf_cons. unfold increment.
    rewrite lookup_alter. case_decide as Hk; case_bool_decide; try done.
    subst k. destruct (proj stats !! key t); simpl; [f_equal; lia|done].
Qed.

End Counter.

Lemma fold_tally_overdue now tasks stats :
  overdue (fold_left (tally now) tasks stats)
  = overdue stats + countIf (isTaskOverdue now) tasks.
Proof.
  revert stats. induction tasks as [|t l IH]; intros stats; simpl.
  - unfold countIf. simpl. lia.
  - rewrite IH, countIf_cons. simpl. destruct (isTaskOverdue now t); lia.
Qed.

Lemma fold_tally_total now tasks stats :
  total (fold_left (tally now) tasks stats) = total stats.
Proof.
  revert stats. induction tasks as [|t l IH]; intros stats; simpl; [done|].
  by rewrite IH.
Qed.

Lemma calculateStats_byStatus now tasks s :
  byStatus (calculateStats now tasks) !! s
  = Some (countIf (λ t, bool_decide (status t = s)) tasks).
Proof.
  simpl. rewrite (fold_tally_counter now byStatus status) by done.
  destruct s; simpl; f_equal; lia.
Qed.

Lemma calculateStats_byPriority now tasks p :
  byPriority (calculateStats now tasks) !! p
  = Some (countIf (λ t, bool_decide (priority t = p)) tasks).
Proof.
  simpl. rewrite (fold_tally_counter now byPriority priority) by done.
  destruct p; simpl; f_equal; lia.
Qed.

Lemma calculateStats_byCategory now tasks c :
  byCategory (calculateStats now tasks) !! c
  = Some (countIf (λ t, bool_decide (category t = c)) tasks).
Proof.
  simpl. rewrite (fold_tally_counter now byCategory category) by done.
  destruct c; simpl; f_equal; lia.
Qed.

Lemma calculateStats_completionRate now tasks :
  completionRate (calculateStats now tasks)
  = let len := Z.of_nat (length tasks) in
    let doneCount := countIf (λ t, bool_decide (status t = Done)) tasks in
    if 0 <? len
    then Math_round (Number doneCount / Number len * Number 100)%float
    else 0.
Proof.
  pose proof (calculateStats_byStatus now tasks Done) as Hdone.
  simpl in *. unfold lookup_total, map_lookup_total. by rewrite Hdone.
Qed.

Lemma calculateStats_total now tasks :
  total (calculateStats now tasks) = Z.of_nat (length tasks).
Proof. simpl. by rewrite fold_tally_total. Qed.

Lemma calculateStats_overdue now tasks :
  overdue (calculateStats now tasks) = countIf (isTaskOverdue now) tasks.
Proof. simpl. by rewrite fold_tally_overdue. Qed.

Lemma TaskStats_eq (s1 s2 : TaskStats) :
  total s1 = total s2 → byStatus s1 = byStatus s2 →
  byPriority s1 = byPriority s2 → byCategory s1 = byCategory s2 →
  overdue s1 = overdue s2 → completionRate s1 = completionRate s2 →
  s1 = s2.
Proof. destruct s1, s2; simpl; congruence. Qed.

(** C5: the completion rate is [Math.round] of the double
    [doneCount / total * 100] when there are tasks and exactly 0 when there
    are none; every status, priority and category key is present, with the
    number of tasks counted under it; the empty list gives the all-zero
    record; and statuses done, in-progress, done give 67. *)
Theorem calculateStats_spec (now : Z) (tasks : list Task) (t1 t2 t3 : Task) :
  let stats := calculateStats now tasks in
  let doneCount := countIf (λ t, bool_decide (status t = Done)) tasks in
  total stats = Z.of_nat (length tasks) ∧
  completionRate stats =
    (if 0 <? total stats
     then Math_round (Number doneCount / Number (total stats) * Number 100)%float
     else 0) ∧
  (∀ s, byStatus stats !! s
        = Some (countIf (λ t, bool_decide (status t = s)) tasks)) ∧
  (∀ p, byPriority stats !! p
        = Some (countIf (λ t, bool_decide (priority t = p)) tasks)) ∧
  (∀ c, byCategory stats !! c
        = Some (countIf (λ t, bool_decide (category t = c)) tasks)) ∧
  overdue stats = countIf (isTaskOverdue now) tasks ∧
  calculateStats now [] =
    {| total := 0;
       byStatus := {[ Todo := 0; InProgress := 0; Done := 0 ]};
       byPriority := {[ Low := 0; Medium := 0; High := 0; Critical := 0 ]};
       byCategory :=
         {[ Work := 0; Personal := 0; Shopping := 0; Health := 0;
            Other := 0 ]};
       overdue := 0;
       completionRate := 0 |} ∧
  completionRate
    (calculateStats now
       [withStatus Done t1; withStatus InProgress t2; withStatus Done t3])
  = 67.
Proof.
  intros stats doneCount. subst stats doneCount. split_and!.
  - apply calculateStats_total.
  - by rewrite calculateStats_completionRate, calculateStats_total.
  - apply calculateStats_byStatus.
  - apply calculateStats_byPriority.
  - apply calculateStats_byCategory.
  - apply calculateStats_overdue.
  - reflexivity.
  - rewrite calculateStats_completionRate. by vm_compute.
Qed.

(** The percentage is rounded from the binary64 product, not from the exact
    quotient: 23 done tasks of 40 are 57.5 percent, the double computed is
    57.49999999999999 and the rate is 57. *)
Remark completionRate_of_23_in_40 :
  (Number 23 / Number 40 * Number 100)%float = 0x1.cbfffffffffffp+5%float ∧
  Math_round (Number 23 / Number 40 * Number 100)%float = 57 ∧
  (2 * (23 * 100) + 40) / (2 * 40) = 58.
Proof. by vm_compute. Qed.

(** C6: at a fixed current time, permuting the task list changes no field of
    the statistics. *)
Theorem calculateStats_permutation (now : Z) (tasks tasks' : list Task) :
  tasks ≡ₚ tasks' → calculateStats now tasks = calculateStats now tasks'.
Proof.
  intros Hperm. apply TaskStats_eq.
  - rewrite !calculateStats_total. by rewrite Hperm.
  - apply map_eq. intros s. rewrite !calculateStats_byStatus.
    by rewrite (countIf_perm _ _ _ Hperm).
  - apply map_eq. intros p. rewrite !calculateStats_byPriority.
    by rewrite (countIf_perm _ _ _ Hperm).
  - apply map_eq. intros c. rewrite !calculateStats_byCategory.
    by rewrite (countIf_perm _ _ _ Hperm).
  - rewrite !calculateStats_overdue. apply countIf_perm, Hperm.
  - rewrite !calculateStats_completionRate. cbv zeta.
    by rewrite (countIf_perm _ _ _ Hperm), (Permutation_length Hperm).
Qed.

Lemma calculateStats_permutation_witness :
  calculateStats Fixtures.FIXED_NOW [Fixtures.zebra; Fixtures.apple; Fixtures.mango]
  = calculateStats Fixtures.FIXED_NOW
      [Fixtures.mango; Fixtures.zebra; Fixtures.apple].
Proof.
  apply calculateStats_permutation.
  change ([Fixtures.zebra; Fixtures.apple] ++ [Fixtures.mango]
          ≡ₚ [Fixtures.mango] ++ [Fixtures.zebra; Fixtures.apple]).
  apply Permutation_app_comm.
Defined.

(** ** The pipeline on the heap *)

Section ArraysFacts.
Context `{JSStrings}.
Implicit Types (σ : gmap positive (list Task)) (r : positive).
Implicit Types (l out : list Task).

Lemma yields_new_yields m σ out : Arrays.yields_new m σ out → Arrays.yields m σ out.
Proof. intros (r & σ' & ? & ? & ? & ?). by exists r, σ'. Qed.

Lemma yields_ret σ r l : σ !! r = Some l → Arrays.yields (Arrays.ret r) σ l.
Proof. intros Hr. by exists r, σ. Qed.

Lemma yields_bind m k σ mid out :
  Arrays.yields m σ mid →
  (∀ r σ', σ' !! r = Some mid → Arrays.yields (k r) σ' out) →
  Arrays.yields (Arrays.bind m k) σ out.
Proof.
  intros (r & σ' & Hm & Hr & Hsub) Hk.
  destruct (Hk r σ' Hr) as (r2 & σ2 & Hk2 & Hr2 & Hsub2).
  exists r2, σ2. unfold Arrays.bind. rewrite Hm. split_and!; [done..|].
  by trans σ'.
Qed.

Lemma yields_new_bind m k σ mid out :
  Arrays.yields m σ mid →
  (∀ r σ', σ' !! r = Some mid → Arrays.yields_new (k r) σ' out) →
  Arrays.yields_new (Arrays.bind m k) σ out.
Proof.
  intros (r & σ' & Hm & Hr & Hsub) Hk.
  destruct (Hk r σ' Hr) as (r2 & σ2 & Hk2 & Hr2 & Hsub2 & Hnew).
  exists r2, σ2. unfold Arrays.bind. rewrite Hm. split_and!; [done..| |].
  - by trans σ'.
  - destruct (σ !! r2) as [x|] eqn:E; [|done].
    eapply lookup_weaken in E; [|exact Hsub]. congruence.
Qed.

Lemma alloc_new σ l :
  ∃ r, Arrays.alloc l σ = Some (r, <[r := l]> σ) ∧ σ !! r = None.
Proof.
  exists (fresh (dom σ)). split; [done|].
  apply not_elem_of_dom, is_fresh.
Qed.

Lemma yields_new_filter p σ r l :
  σ !! r = Some l → Arrays.yields_new (Arrays.filter p r) σ (List.filter p l).
Proof.
  intros Hr. destruct (alloc_new σ (List.filter p l)) as (r' & Ha & Hnew).
  exists r', (<[r' := List.filter p l]> σ).
  unfold Arrays.filter, Arrays.bind, Arrays.contents. rewrite Hr, Ha.
  split_and!; [done| |by apply insert_subseteq|done].
  by rewrite lookup_insert_eq.
Qed.

Lemma yields_filterTasksBySearch σ r l query :
  σ !! r = Some l →
  Arrays.yields (Arrays.filterTasksBySearch r query) σ
    (filterTasksBySearch l query).
Proof.
  intros Hr. unfold Arrays.filterTasksBySearch, filterTasksBySearch.
  case_decide; [by apply yields_ret|].
  by apply yields_new_yields, yields_new_filter.
Qed.

Lemma yields_filterByPriority σ r l p :
  σ !! r = Some l →
  Arrays.yields (Arrays.filterByPriority r p) σ (filterByPriority l p).
Proof.
  intros Hr. destruct p; simpl; [by apply yields_ret|].
  by apply yields_new_yields, yields_new_filter.
Qed.

Lemma yields_filterByCategory σ r l c :
  σ !! r = Some l →
  Arrays.yields (Arrays.filterByCategory r c) σ (filterByCategory l c).
Proof.
  intros Hr. destruct c; simpl; [by apply yields_ret|].
  by apply yields_new_yields, yields_new_filter.
Qed.

Lemma yields_filterByStatus σ r l s :
  σ !! r = Some l →
  Arrays.yields (Arrays.filterByStatus r s) σ (filterByStatus l s).
Proof.
  intros Hr. destruct s; simpl; [by apply yields_ret|].
  by apply yields_new_yields, yields_new_filter.
Qed.

Lemma run_bind {A B} (m : Arrays.M A) (k : A → Arrays.M B) σ a σ' :
  m σ = Some (a, σ') → Arrays.bind m k σ = k a σ'.
Proof. unfold Arrays.bind. by intros ->. Qed.

Lemma run_contents σ r l : σ !! r = Some l → Arrays.contents r σ = Some (l, σ).
Proof. unfold Arrays.contents. by intros ->. Qed.

Lemma run_assign σ r l l' :
  σ !! r = Some l → Arrays.assign r l' σ = Some ((), <[r := l']> σ).
Proof. unfold Arrays.assign. by intros ->. Qed.

Lemma run_spread σ r l :
  σ !! r = Some l →
  ∃ c, Arrays.spread r σ = Some (c, <[c := l]> σ) ∧ σ !! c = None.
Proof.
  intros Hr. destruct (alloc_new σ l) as (c & Ha & Hnew). exists c.
  unfold Arrays.spread.
  by rewrite (run_bind _ _ _ _ _ (run_contents _ _ _ Hr)).
Qed.

(** [sort] and [reverse] rearrange the array they are called on. *)
Lemma run_sort cmp σ r l :
  σ !! r = Some l →
  Arrays.sort cmp r σ = Some (r, <[r := Array_sort cmp l]> σ).
Proof.
  intros Hr. unfold Arrays.sort.
  rewrite (run_bind _ _ _ _ _ (run_contents _ _ _ Hr)).
  by rewrite (run_bind _ _ _ _ _ (run_assign _ _ _ _ Hr)).
Qed.

Lemma run_reverse σ r l :
  σ !! r = Some l → Arrays.reverse r σ = Some (r, <[r := rev l]> σ).
Proof.
  intros Hr. unfold Arrays.reverse.
  rewrite (run_bind _ _ _ _ _ (run_contents _ _ _ Hr)).
  by rewrite (run_bind _ _ _ _ _ (run_assign _ _ _ _ Hr)).
Qed.

(** [sortTasks] sorts and reverses a copy: the array it was given keeps its
    arrangement. *)
Lemma yields_new_sortTasks σ r l field order :
  σ !! r = Some l →
  Arrays.yields_new (Arrays.sortTasks r field order) σ
    (sortTasks l field order).
Proof.
  intros Hr. destruct (run_spread σ r l Hr) as (c & Hc & Hnew).
  pose proof (run_sort (COMPARATORS field) (<[c := l]> σ) c l
                (lookup_insert_eq _ _ _)) as Hs.
  rewrite insert_insert_eq in Hs.
  unfold Arrays.yields_new, Arrays.sortTasks, sortTasks. cbv zeta.
  rewrite (run_bind _ _ _ _ _ Hc), (run_bind _ _ _ _ _ Hs).
  destruct order.
  - eexists c, _. split_and!; [done| |by apply insert_subseteq|done].
    by rewrite lookup_insert_eq.
  - erewrite run_reverse by apply lookup_insert_eq.
    rewrite insert_insert_eq.
    eexists c, _. split_and!; [done| |by apply insert_subseteq|done].
    by rewrite lookup_insert_eq.
Qed.

Lemma yields_new_multiSort σ r l criteria :
  σ !! r = Some l →
  Arrays.yields_new (Arrays.multiSort r criteria) σ (multiSort l criteria).
Proof.
  intros Hr. destruct (run_spread σ r l Hr) as (c & Hc & Hnew).
  pose proof (run_sort (multiSort_compare criteria) (<[c := l]> σ) c l
                (lookup_insert_eq _ _ _)) as Hs.
  rewrite insert_insert_eq in Hs.
  unfold Arrays.yields_new, Arrays.multiSort, multiSort.
  rewrite (run_bind _ _ _ _ _ Hc), Hs.
  eexists c, _. split_and!; [done| |by apply insert_subseteq|done].
  by rewrite lookup_insert_eq.
Qed.

Lemma yields_new_filterOverdue now σ r l :
  σ !! r = Some l →
  Arrays.yields_new (Arrays.filterOverdue now r) σ (filterOverdue now l).
Proof. apply yields_new_filter. Qed.

Lemma yields_new_bind_ret m σ out :
  Arrays.yields_new m σ out →
  Arrays.yields_new (Arrays.bind m Arrays.ret) σ out.
Proof.
  intros (r & σ' & Hm & Hrest). exists r, σ'.
  by rewrite (run_bind _ _ _ _ _ Hm).
Qed.

Lemma yields_new_applyFilters σ r l filters :
  σ !! r = Some l →
  Arrays.yields_new (Arrays.applyFilters r filters) σ (applyFilters l filters).
Proof.
  intros Hr. unfold Arrays.applyFilters, applyFilters.
  eapply yields_new_bind; [by apply yields_filterTasksBySearch|].
  intros r1 σ1 Hr1.
  eapply yields_new_bind; [by apply yields_filterByPriority|].
  intros r2 σ2 Hr2.
  eapply yields_new_bind; [by apply yields_filterByCategory|].
  intros r3 σ3 Hr3.
  eapply yields_new_bind; [by apply yields_filterByStatus|].
  intros r4 σ4 Hr4.
  by apply yields_new_bind_ret, yields_new_sortTasks.
Qed.

End ArraysFacts.

(** ** Filter pipeline *)

Lemma prefix_occurs q s :
  String.prefix q s = true ↔ ∃ post, s = (q ++ post)%string.
Proof.
  revert s. induction q as [|c q IH]; intros s; simpl.
  - split; [intros _; by exists s|by destruct s].
  - destruct s as [|c' s]; [split; [done|by intros [? [=]]]|].
    simpl. destruct (Ascii.ascii_dec c c') as [Heq|Hne]; [subst c'|].
    + rewrite IH. split.
      * intros [post ->]. by exists post.
      * intros [post [= ->]]. by exists post.
    + split; [done|]. intros [post [= -> _]]. done.
Qed.

Lemma includes_unfold s q :
  includes s q
  = String.prefix q s
    || match s with EmptyString => false | String _ s' => includes s' q end.
Proof. by destruct s. Qed.

Lemma includes_occursIn s q : includes s q = true ↔ occursIn q s.
Proof.
  unfold occursIn. split.
  - induction s as [|c s IH]; rewrite includes_unfold.
    + rewrite orb_false_r. intros [post ->]%prefix_occurs. by exists "", post.
    + intros [[post ->]%prefix_occurs|(pre & post & ->)%IH]%orb_true_iff.
      * by exists "", post.
      * by exists (String c pre), post.
  - intros (pre & post & ->). induction pre as [|c pre IH].
    + rewrite includes_unfold. apply orb_true_iff. left.
      apply prefix_occurs. by exists post.
    + rewrite includes_unfold. apply orb_true_iff. by right.
Qed.

Lemma matchesSearch_mentions `{JSStrings} q task :
  matchesSearch q task = true ↔ mentions q task.
Proof.
  unfold matchesSearch, mentions.
  rewrite !orb_true_iff, includes_occursIn, existsb_exists.
  split.
  - intros [[Ht|Hd]|(tag & Hin & Htag)].
    + by left.
    + right. left. destruct (description task) as [d|]; [|done].
      exists d. split; [done|]. by apply includes_occursIn.
    + right. right. exists tag. split; [by apply list_elem_of_In|].
      by apply includes_occursIn.
  - intros [Ht|[(d & -> & Hd)|(tag & Hin & Htag)]].
    + by left; left.
    + left. right. by apply includes_occursIn.
    + right. exists tag. split; [by apply list_elem_of_In|].
      by apply includes_occursIn.
Qed.

Lemma selects_everything {A} (P : A → Prop) (l : list A) :
  (∀ x, P x) → selects P l l.
Proof.
  intros HP. exists (λ _, true). split; [done|].
  induction l as [|x l IH]; simpl; congruence.
Qed.

Lemma filterTasksBySearch_selects `{JSStrings} l query :
  let q := toLowerCase (trim query) in
  selects (λ t, q = "" ∨ mentions q t) l (filterTasksBySearch l query).
Proof.
  simpl. unfold filterTasksBySearch. case_decide as Hq.
  - apply selects_everything. by left.
  - exists (matchesSearch (toLowerCase (trim query))). split; [|done].
    intros t. rewrite matchesSearch_mentions. split; [by right|].
    by intros [?|?].
Qed.

Lemma filterByPriority_selects l p :
  selects (λ t, p = All ∨ p = Exactly (priority t)) l (filterByPriority l p).
Proof.
  destruct p as [|p]; simpl.
  - apply selects_everything. by left.
  - eexists. split; [|done]. intros t. rewrite bool_decide_eq_true. split.
    + intros ->. by right.
    + by intros [[=]|[= ->]].
Qed.

Lemma filterByCategory_selects l c :
  selects (λ t, c = All ∨ c = Exactly (category t)) l (filterByCategory l c).
Proof.
  destruct c as [|c]; simpl.
  - apply selects_everything. by left.
  - eexists. split; [|done]. intros t. rewrite bool_decide_eq_true. split.
    + intros ->. by right.
    + by intros [[=]|[= ->]].
Qed.

Lemma filterByStatus_selects l st :
  selects (λ t, st = All ∨ st = Exactly (status t)) l (filterByStatus l st).
Proof.
  destruct st as [|st]; simpl.
  - apply selects_everything. by left.
  - eexists. split; [|done]. intros t. rewrite bool_decide_eq_true. split.
    + intros ->. by right.
    + by intros [[=]|[= ->]].
Qed.

(** C7: called on an array holding [l], [applyFilters] returns a newly
    allocated array whose contents are [l] passed through search, priority
    filter, category filter, status filter and sort, in that order, each
    stage applied to the output of the one before.  The search keeps the
    tasks that mention the trimmed, lower-cased query in their title,
    description or tags (all of them when it is blank); each categorical
    filter keeps the tasks with the requested value (all of them for
    ['all']); every filter keeps them as often as and in the order in which
    they stand in its input; and the last stage arranges what is left by the
    comparator of [sortBy]: a stable sort along it for ['asc'], the reverse
    of that for ['desc'].  On the two tasks (low, todo), (critical, done)
    the filters priority = critical, status = todo leave nothing. *)
Theorem applyFilters_stages `{JSStrings} (σ : gmap positive (list Task))
  (tasks : positive) (l : list Task) (filters : TaskFilters) :
  σ !! tasks = Some l →
  let q := toLowerCase (trim (search filters)) in
  let comparator :=
    match sortBy filters with
    | ByCreatedAt => compareByCreatedAt
    | ByDueDate => compareByDueDate
    | ByPriority => compareByPriority
    | ByTitle => compareByTitle
    end in
  let searched := filterTasksBySearch l (search filters) in
  let ofPriority := filterByPriority searched (f_priority filters) in
  let ofCategory := filterByCategory ofPriority (f_category filters) in
  let ofStatus := filterByStatus ofCategory (f_status filters) in
  let sorted :=
    sortTasks ofStatus (SortBy_as_SortField (sortBy filters))
      (sortOrder filters) in
  Arrays.yields_new (Arrays.applyFilters tasks filters) σ sorted ∧
  applyFilters l filters = sorted ∧
  applyFilters [Fixtures.lowTodo; Fixtures.criticalDone]
    {| search := ""; f_priority := Exactly Critical; f_category := All;
       f_status := Exactly Todo; sortBy := ByCreatedAt; sortOrder := desc |}
  = [] ∧
  selects (λ t, q = "" ∨ mentions q t) l searched ∧
  selects (λ t, f_priority filters = All
                ∨ f_priority filters = Exactly (priority t))
    searched ofPriority ∧
  selects (λ t, f_category filters = All
                ∨ f_category filters = Exactly (category t))
    ofPriority ofCategory ∧
  selects (λ t, f_status filters = All
                ∨ f_status filters = Exactly (status t))
    ofCategory ofStatus ∧
  sorted ≡ₚ ofStatus ∧
  stable_sort_of comparator ofStatus
    (match sortOrder filters with asc => sorted | desc => rev sorted end) ∧
  before (λ a b, match sortOrder filters with
                 | asc => comparator a b ≤ 0
                 | desc => comparator b a ≤ 0
                 end) sorted.
Proof.
  intros Hl. cbv zeta.
  assert (COMPARATORS (SortBy_as_SortField (sortBy filters))
          = match sortBy filters with
            | ByCreatedAt => compareByCreatedAt
            | ByDueDate => compareByDueDate
            | ByPriority => compareByPriority
            | ByTitle => compareByTitle
            end) as Hcmp by by destruct (sortBy filters).
  rewrite <- Hcmp. split_and!.
  - by apply yields_new_applyFilters.
  - reflexivity.
  - unfold applyFilters, filterTasksBySearch. simpl.
    rewrite trim_empty, toLowerCase_empty. reflexivity.
  - apply filterTasksBySearch_selects.
  - apply filterByPriority_selects.
  - apply filterByCategory_selects.
  - apply filterByStatus_selects.
  - apply sortTasks_perm.
  - destruct (sortOrder filters).
    + apply Array_sort_stable, COMPARATORS_consistent.
    + unfold sortTasks. rewrite rev_involutive.
      apply Array_sort_stable, COMPARATORS_consistent.
  - destruct (sortOrder filters).
    + apply sortTasks_asc_before.
    + apply sortTasks_desc_before.
Qed.

Lemma applyFilters_stages_witness :
  Arrays.yields_new
    (Arrays.applyFilters 1%positive
       {| search := " TASK "; f_priority := Exactly High;
          f_category := Exactly Personal; f_status := Exactly InProgress;
          sortBy := ByTitle; sortOrder := asc |})
    {[ 1%positive := Fixtures.FILTER_TASKS ]} [Fixtures.highInProgress].
Proof.
  destruct (applyFilters_stages {[ 1%positive := Fixtures.FILTER_TASKS ]}
              1%positive Fixtures.FILTER_TASKS
              {| search := " TASK "; f_priority := Exactly High;
                 f_category := Exactly Personal;
                 f_status := Exactly InProgress;
                 sortBy := ByTitle; sortOrder := asc |}) as (Hrun & _).
  - reflexivity.
  - exact Hrun.
Defined.

(** C8: two calls of [applyFilters] with the same filters, on the same array
    or on two arrays with identical contents, return arrays with the same
    elements in the same order.  Each call allocates its result, and leaves
    its argument and the result of the earlier call as they were. *)
Theorem applyFilters_repeatable `{JSStrings} (σ : gmap positive (list Task))
  (tasks tasks' : positive) (l : list Task) (filters : TaskFilters) :
  σ !! tasks = Some l → σ !! tasks' = Some l →
  ∃ r1 σ1 r2 σ2 out,
    Arrays.applyFilters tasks filters σ = Some (r1, σ1) ∧
    Arrays.applyFilters tasks' filters σ1 = Some (r2, σ2) ∧
    σ1 !! r1 = Some out ∧ σ2 !! r2 = Some out ∧
    out = applyFilters l filters ∧
    r1 ≠ r2 ∧ σ2 !! r1 = Some out ∧
    σ2 !! tasks = Some l ∧ σ2 !! tasks' = Some l.
Proof.
  intros Hl Hl'.
  destruct (yields_new_applyFilters σ tasks l filters Hl)
    as (r1 & σ1 & Hrun1 & Hr1 & Hsub1 & Hnew1).
  assert (σ1 !! tasks' = Some l) as Hl1' by by eapply lookup_weaken.
  destruct (yields_new_applyFilters σ1 tasks' l filters Hl1')
    as (r2 & σ2 & Hrun2 & Hr2 & Hsub2 & Hnew2).
  exists r1, σ1, r2, σ2, (applyFilters l filters).
  split_and!; try done.
  - intros ->. congruence.
  - by eapply lookup_weaken.
  - eapply lookup_weaken; [|exact Hsub2]. by eapply lookup_weaken.
  - by eapply lookup_weaken.
Qed.

Lemma applyFilters_repeatable_witness :
  ∃ r1 σ1 r2 σ2 out,
    Arrays.applyFilters 1%positive DEFAULT_FILTERS
      {[ 1%positive := Fixtures.TASKS; 2%positive := Fixtures.TASKS ]}
      = Some (r1, σ1) ∧
    Arrays.applyFilters 2%positive DEFAULT_FILTERS σ1 = Some (r2, σ2) ∧
    σ1 !! r1 = Some out ∧ σ2 !! r2 = Some out ∧
    out = applyFilters Fixtures.TASKS DEFAULT_FILTERS ∧
    r1 ≠ r2 ∧ σ2 !! r1 = Some out ∧
    σ2 !! 1%positive = Some Fixtures.TASKS ∧
    σ2 !! 2%positive = Some Fixtures.TASKS.
Proof.
  apply (applyFilters_repeatable
           {[ 1%positive := Fixtures.TASKS; 2%positive := Fixtures.TASKS ]}
           1%positive 2%positive Fixtures.TASKS DEFAULT_FILTERS);
    reflexivity.
Defined.

(** The output is not, in general, a fixed point of the pipeline: with
    ['desc'] the tasks that compare equal come out in the reverse of their
    input order, so feeding the output back in swaps them again. *)
Remark applyFilters_of_output :
  applyFilters [Fixtures.zap; Fixtures.alpha] DEFAULT_FILTERS
    = [Fixtures.alpha; Fixtures.zap] ∧
  applyFilters (applyFilters [Fixtures.zap; Fixtures.alpha] DEFAULT_FILTERS)
    DEFAULT_FILTERS
    = [Fixtures.zap; Fixtures.alpha].
Proof. by vm_compute. Qed.

(** ** CRUD helpers *)

Lemma updateTask_literal_lookup now (t u : gmap string Objects.Value) k :
  Objects.updateTask_literal now t u !! k =
    if decide (k = "updatedAt") then Some (Objects.VTime now)
    else if decide (k = "createdAt") then Some (Objects.get t "createdAt")
    else if decide (k = "id") then Some (Objects.get t "id")
    else match u !! k with Some v => Some v | None => t !! k end.
Proof.
  unfold Objects.updateTask_literal.
  repeat (case_decide; [subst; by simplify_map_eq|]).
  rewrite !lookup_insert_ne by done. rewrite lookup_union.
  by destruct (u !! k), (t !! k).
Qed.

(** C9: [updateTask] never fails; it returns a new object whose [id] and
    [createdAt] are those of the task whatever the payload holds, whose
    [updatedAt] is the current timestamp, and whose other properties are the
    payload's where the payload has them and the task's otherwise.  The task
    and the payload are left as they were. *)
Theorem updateTask_merge (now : Z)
  (h : gmap positive (gmap string Objects.Value))
  (task updates : positive) (t u : gmap string Objects.Value) :
  h !! task = Some t → h !! updates = Some u →
  ∃ r h' o,
    Objects.updateTask now task updates h = Some (r, h') ∧
    h !! r = None ∧ h' !! r = Some o ∧
    h' !! task = Some t ∧ h' !! updates = Some u ∧
    (∀ x, x ≠ r → h' !! x = h !! x) ∧
    Objects.get o "id" = Objects.get t "id" ∧
    Objects.get o "createdAt" = Objects.get t "createdAt" ∧
    Objects.get o "updatedAt" = Objects.VTime now ∧
    ∀ k, k ≠ "id" → k ≠ "createdAt" → k ≠ "updatedAt" →
         o !! k = match u !! k with Some v => Some v | None => t !! k end.
Proof.
  intros Ht Hu. unfold Objects.updateTask. rewrite Ht, Hu.
  set (r := fresh (dom h)).
  assert (h !! r = None) as Hnew by apply not_elem_of_dom, is_fresh.
  exists r, (<[r := Objects.updateTask_literal now t u]> h),
    (Objects.updateTask_literal now t u).
  split_and!; try done.
  - by rewrite lookup_insert_eq.
  - rewrite lookup_insert_ne; [done|]. intros <-. congruence.
  - rewrite lookup_insert_ne; [done|]. intros <-. congruence.
  - intros x Hx. by rewrite lookup_insert_ne.
  - unfold Objects.get at 1. by rewrite updateTask_literal_lookup.
  - unfold Objects.get at 1. by rewrite updateTask_literal_lookup.
  - unfold Objects.get at 1. by rewrite updateTask_literal_lookup.
  - intros k Hid Hcreated Hupdated. rewrite updateTask_literal_lookup.
    by rewrite !decide_False by done.
Qed.

(** ['prevents overwriting the id'], with a payload that also tries to
    overwrite [createdAt] and changes the title. *)
Lemma updateTask_merge_witness :
  let payload : gmap string Objects.Value :=
    {[ "id" := Objects.VString "hacked_id";
       "createdAt" := Objects.VTime 4070908800000;
       "title" := Objects.VString "New title" ]} in
  let h : gmap positive (gmap string Objects.Value) :=
    {[ 1%positive := Objects.Task_object Fixtures.BASE_TASK;
       2%positive := payload ]} in
  ∃ r h' o,
    Objects.updateTask 1718452800000 1%positive 2%positive h = Some (r, h') ∧
    h' !! r = Some o ∧
    h' !! 1%positive = Some (Objects.Task_object Fixtures.BASE_TASK) ∧
    Objects.get o "id" = Objects.VString "task_test_001" ∧
    Objects.get o "createdAt" = Objects.VTime 1704067200000 ∧
    Objects.get o "updatedAt" = Objects.VTime 1718452800000 ∧
    o !! "title" = Some (Objects.VString "New title") ∧
    o !! "priority" = Some (Objects.VString "medium").
Proof.
  intros payload h.
  destruct (updateTask_merge 1718452800000 h 1%positive 2%positive
              (Objects.Task_object Fixtures.BASE_TASK) payload)
    as (r & h' & o & Hrun & _ & Ho & Htask & _ & _ & Hid & Hcreated
        & Hupdated & Hrest).
  - reflexivity.
  - reflexivity.
  - exists r, h', o. split_and!; try done.
    + by rewrite Hrest.
    + by rewrite Hrest.
Defined.

(** ** The test suite, replayed on the model

    The expectations of the unit tests that exercise the pipeline, evaluated
    on the definitions above with the host [ascii_host]. *)

Section Replay.
Import Fixtures.

(** [describe('compareBy...')] of [sorting.test.ts]. *)
Example test_comparators :
  compareByTitle apple zebra < 0 ∧
  compareByTitle (t "x" "APPLE" Medium Jan01 None)
                 (t "x" "apple" Medium Jan01 None) = 0 ∧
  compareByPriority apple zebra < 0 ∧
  compareByPriority mango mango = 0 ∧
  compareByCreatedAt apple zebra < 0 ∧
  compareByDueDate apple zebra < 0 ∧
  compareByDueDate mango zebra > 0 ∧
  compareByDueDate mango alpha = 0.
Proof. by vm_compute. Qed.

(** [describe('sortTasks')]: title ascending and descending, and creation
    date descending, which the suite expects oldest first. *)
Example test_sortTasks :
  head (sortTasks TASKS SortTitle asc) = Some apple ∧
  last (sortTasks TASKS SortTitle asc) = Some zebra ∧
  head (sortTasks TASKS SortTitle desc) = Some zebra ∧
  sortTasks TASKS SortCreatedAt desc = [zebra; mango; apple] ∧
  sortTasks [] SortTitle asc = [].
Proof. by vm_compute. Qed.

(** ['sorts by priority descending (critical first)'] calls
    [sortTasks(TASKS, 'priority', 'asc')] and expects the last task to be the
    critical one; the code returns the critical task first, as the name of
    the test says. *)
Example test_sortTasks_priority :
  priority <$> head (sortTasks TASKS SortPriority asc) = Some Critical ∧
  priority <$> last (sortTasks TASKS SortPriority asc) = Some Low.
Proof. by vm_compute. Qed.

(** [describe('multiSort')]. *)
Example test_multiSort :
  head (multiSort [zap; alpha]
          [mkCriteria SortPriority asc; mkCriteria SortTitle asc])
    = Some alpha ∧
  multiSort TASKS [] = TASKS.
Proof. by vm_compute. Qed.

(** ['does not mutate the input array'], for [sortTasks], [multiSort] and
    [filterByPriority]: after the call the array passed in holds what it
    held, and the result is another array. *)
Example test_no_mutation :
  (∃ r σ',
     Arrays.sortTasks 1%positive SortTitle desc {[ 1%positive := TASKS ]}
       = Some (r, σ') ∧
     r ≠ 1%positive ∧ σ' !! 1%positive = Some TASKS ∧
     σ' !! r = Some [zebra; mango; apple]) ∧
  (∃ r σ',
     Arrays.multiSort 1%positive [mkCriteria SortTitle asc]
       {[ 1%positive := TASKS ]} = Some (r, σ') ∧
     r ≠ 1%positive ∧ σ' !! 1%positive = Some TASKS ∧
     σ' !! r = Some [apple; mango; zebra]) ∧
  (∃ r σ',
     Arrays.filterByPriority 1%positive (Exactly Low)
       {[ 1%positive := FILTER_TASKS ]} = Some (r, σ') ∧
     r ≠ 1%positive ∧ σ' !! 1%positive = Some FILTER_TASKS ∧
     σ' !! r = Some [lowTodo]) ∧
  Arrays.filterByPriority 1%positive All {[ 1%positive := FILTER_TASKS ]}
    = Some (1%positive, {[ 1%positive := FILTER_TASKS ]}).
Proof.
  split_and!; [| | |reflexivity];
    (eexists _, _; split; [by vm_compute|]; by vm_compute).
Qed.

(** [filtering.test.ts], with the clock at [FIXED_NOW]. *)
Example test_filters :
  filterByPriority FILTER_TASKS All = FILTER_TASKS ∧
  filterByPriority FILTER_TASKS (Exactly High) = [highInProgress] ∧
  filterByCategory FILTER_TASKS (Exactly Personal) = [highInProgress] ∧
  filterByCategory FILTER_TASKS (Exactly Other) = [] ∧
  filterByStatus FILTER_TASKS (Exactly Done) = [criticalDone] ∧
  filterOverdue FIXED_NOW FILTER_TASKS = [highInProgress] ∧
  length (applyFilters FILTER_TASKS DEFAULT_FILTERS) = 4%nat ∧
  length (applyFilters FILTER_TASKS
            {| search := "Base"; f_priority := All; f_category := All;
               f_status := All; sortBy := ByCreatedAt; sortOrder := desc |})
    = 4%nat ∧
  applyFilters FILTER_TASKS
    {| search := ""; f_priority := Exactly Low; f_category := All;
       f_status := Exactly Todo; sortBy := ByCreatedAt; sortOrder := desc |}
    = [lowTodo] ∧
  applyFilters FILTER_TASKS
    {| search := ""; f_priority := Exactly Critical; f_category := All;
       f_status := Exactly Todo; sortBy := ByCreatedAt; sortOrder := desc |}
    = [].
Proof. by vm_compute. Qed.

(** [describe('calculateStats')] and the edge cases of
    [edgeCases.test.ts]. *)
Example test_calculateStats :
  let stats := calculateStats FIXED_NOW STATS_TASKS in
  total stats = 3 ∧
  byStatus stats !! Done = Some 1 ∧
  byStatus stats !! InProgress = Some 1 ∧
  byStatus stats !! Todo = Some 1 ∧
  byPriority stats !! Critical = Some 0 ∧
  byCategory stats !! Work = Some 2 ∧
  overdue stats = 1 ∧
  completionRate stats = 33 ∧
  completionRate (calculateStats FIXED_NOW (withStatus Done <$> STATS_TASKS))
    = 100 ∧
  completionRate (calculateStats FIXED_NOW [BASE_TASK]) = 0.
Proof. by vm_compute. Qed.

(** [describe('isTaskOverdue')], and the boundary test of the edge cases. *)
Example test_isTaskOverdue :
  isTaskOverdue FIXED_NOW (t "1" "T" Medium Jan01 (Some 1717200000000))
    = true ∧
  isTaskOverdue FIXED_NOW (t "1" "T" Medium Jan01 (Some 1735603200000))
    = false ∧
  isTaskOverdue FIXED_NOW
    (withStatus Done (t "1" "T" Medium Jan01 (Some Jan01))) = false ∧
  isTaskOverdue FIXED_NOW (t "1" "T" Medium Jan01 None) = false ∧
  isTaskOverdue FIXED_NOW (t "1" "T" Medium Jan01 (Some FIXED_NOW)) = false.
Proof. by vm_compute. Qed.

End Replay.

(** * Further properties of the pipeline *)

(** ** Sorting *)

Section MoreArraySort.
Context {A : Type} (cmp : A → A → Z).

Lemma Array_sort_ext (cmp' : A → A → Z) l :
  (∀ a b, cmp a b = cmp' a b) → Array_sort cmp l = Array_sort cmp' l.
Proof.
  intros Heq. induction l as [|x l IH]; simpl; [done|]. rewrite IH.
  generalize (Array_sort cmp' l). intros s.
  induction s as [|y s IHs]; simpl; [done|]. by rewrite Heq, IHs.
Qed.

(** A list already arranged along the comparator is left as it is. *)
Lemma Array_sort_sorted l :
  before (λ a b, cmp a b ≤ 0) l → Array_sort cmp l = l.
Proof.
  induction 1 as [|x l Hl IH Hx]; simpl; [done|]. rewrite IH.
  destruct Hx as [|y l Hxy _]; simpl; [done|].
  by rewrite (proj2 (Z.leb_le _ _) Hxy).
Qed.

Hypothesis cmp_consistent : consistent cmp.

Lemma sort_insert_head x l :
  Forall (λ z, cmp x z ≤ 0) l → sort_insert cmp x l = x :: l.
Proof.
  destruct 1 as [|y l Hxy _]; simpl; [done|].
  by rewrite (proj2 (Z.leb_le _ _) Hxy).
Qed.

Lemma sort_insert_filter (p : A → bool) x l :
  before (λ a b, cmp a b ≤ 0) l →
  List.filter p (sort_insert cmp x l)
  = if p x then sort_insert cmp x (List.filter p l) else List.filter p l.
Proof.
  destruct cmp_consistent as [_ Htrans].
  induction 1 as [|y l Hl IH Hy].
  - simpl. by destruct (p x).
  - cbn [sort_insert]. destruct (Z.leb_spec (cmp x y) 0) as [Hxy|Hxy].
    + cbn [List.filter]. destruct (p x); [|done].
      symmetry. apply sort_insert_head, Forall_forall. intros z Hz.
      assert (z ∈ y :: l) as Hin.
      { assert (z ∈ List.filter p l → z ∈ l) as Hsub.
        { intros Hf. by apply list_elem_of_In, filter_In in Hf
            as [?%list_elem_of_In _]. }
        rewrite elem_of_cons. destruct (p y); [|by right; apply Hsub].
        apply elem_of_cons in Hz as [->|Hz]; [by left|by right; apply Hsub]. }
      apply elem_of_cons in Hin as [->|Hin]; [done|].
      rewrite Forall_forall in Hy. eapply Htrans; [exact Hxy|]. by apply Hy.
    + cbn [List.filter]. rewrite IH.
      destruct (p y), (p x); cbn [sort_insert]; try done.
      by rewrite (proj2 (Z.leb_gt _ _) Hxy).
Qed.

(** Selecting commutes with the stable sort. *)
Lemma Array_sort_filter (p : A → bool) l :
  Array_sort cmp (List.filter p l) = List.filter p (Array_sort cmp l).
Proof.
  induction l as [|x l IH]; simpl; [done|].
  rewrite sort_insert_filter by by apply Array_sort_before.
  destruct (p x); simpl; by rewrite IH.
Qed.

End MoreArraySort.

Lemma Array_sort_zero {A} (l : list A) : Array_sort (λ _ _, 0) l = l.
Proof. apply Array_sort_sorted. induction l; constructor; [done|]. by apply Forall_forall. Qed.

Lemma filter_rev {A} (p : A → bool) (l : list A) :
  List.filter p (rev l) = rev (List.filter p l).
Proof.
  induction l as [|x l IH]; simpl; [done|].
  rewrite List.filter_app, IH. simpl. destruct (p x); simpl; [done|].
  by rewrite app_nil_r.
Qed.

Lemma filter_filter {A} (p q : A → bool) (l : list A) :
  List.filter p (List.filter q l) = List.filter (λ x, q x && p x) l.
Proof.
  induction l as [|x l IH]; simpl; [done|].
  destruct (q x); simpl; [|done]. destruct (p x); by rewrite IH.
Qed.

Lemma filter_true {A} (p : A → bool) (l : list A) :
  (∀ x, p x = true) → List.filter p l = l.
Proof.
  intros Hp. induction l as [|x l IH]; simpl; [done|]. by rewrite Hp, IH.
Qed.

Lemma filter_ext_bool {A} (p q : A → bool) (l : list A) :
  (∀ x, p x = q x) → List.filter p l = List.filter q l.
Proof.
  intros Hpq. induction l as [|x l IH]; simpl; [done|]. by rewrite Hpq, IH.
Qed.

Section MorePipeline.
Context `{JSStrings}.

(** Every stage is a selection by some predicate (the constant one for a
    stage that has nothing to do). *)
Lemma runStage_filter stage :
  ∃ p : Task → bool, ∀ tasks, runStage stage tasks = List.filter p tasks.
Proof.
  destruct stage as [query|[|p]|[|c]|[|s]|now]; simpl;
    try (by eexists; intros; reflexivity);
    try (exists (λ _, true); intros; by rewrite filter_true).
  unfold filterTasksBySearch. case_decide.
  - exists (λ _, true). intros. by rewrite filter_true.
  - by eexists.
Qed.

Lemma sortTasks_filter (p : Task → bool) tasks field order :
  sortTasks (List.filter p tasks) field order
  = List.filter p (sortTasks tasks field order).
Proof.
  unfold sortTasks.
  rewrite (Array_sort_filter _ (COMPARATORS_consistent field)).
  destruct order; [done|]. by rewrite filter_rev.
Qed.

Lemma applyFilters_filter tasks filters :
  applyFilters tasks filters
  = sortTasks (List.filter (passesFilters filters) tasks)
      (SortBy_as_SortField (sortBy filters)) (sortOrder filters).
Proof.
  unfold applyFilters. f_equal.
  assert (∀ {A} `{EqDecision A} (f : OrAll A) (proj : Task → A) l
            (g : list Task → OrAll A → list Task),
            (g l All = l) →
            (∀ a, g l (Exactly a) = List.filter (λ t, bool_decide (proj t = a)) l) →
            g l f = List.filter (λ t, admits f (proj t)) l) as Hadmits.
  { intros A ? f proj l g Hall Hex. destruct f as [|a]; simpl.
    - by rewrite Hall, filter_true.
    - apply Hex. }
  rewrite (Hadmits _ _ (f_status filters) status) by done.
  rewrite (Hadmits _ _ (f_category filters) category) by done.
  rewrite (Hadmits _ _ (f_priority filters) priority) by done.
  rewrite !filter_filter. unfold filterTasksBySearch, passesFilters.
  case_decide as Hq.
  - apply filter_ext_bool. intros t.
    rewrite (bool_decide_eq_true_2 _ Hq). simpl. by rewrite andb_assoc.
  - rewrite filter_filter. apply filter_ext_bool. intros t.
    rewrite (bool_decide_eq_false_2 _ Hq). simpl. by rewrite !andb_assoc.
Qed.

End MorePipeline.

(** X1: every comparator of [COMPARATORS], and the comparator [multiSort]
    builds from any list of criteria, is consistent: swapping the operands
    swaps the sign and "does not sort after" is transitive.  The outcome of
    [sort] is therefore fixed by the language. *)
Theorem comparators_consistent `{JSStrings} (field : SortField)
  (criteria : list SortCriteria) :
  consistent (COMPARATORS field) ∧ consistent (multiSort_compare criteria).
Proof.
  split; [apply COMPARATORS_consistent|apply multiSort_compare_consistent].
Qed.

(** X2: [multiSort] with no criteria returns the tasks in their input order,
    and with one ascending criterion it returns what [sortTasks] returns for
    that field and ['asc']. *)
Theorem multiSort_degenerate `{JSStrings} (tasks : list Task)
  (field : SortField) :
  multiSort tasks [] = tasks ∧
  multiSort tasks [mkCriteria field asc] = sortTasks tasks field asc.
Proof.
  split.
  - apply Array_sort_zero.
  - unfold multiSort, sortTasks. apply Array_sort_ext. intros a b. simpl.
    case_decide; [done|]. destruct (decide (COMPARATORS field a b = 0)); lia.
Qed.

(** X3: sorting is idempotent in the ascending direction: a list that
    [sortTasks] (with ['asc']) or [multiSort] has returned is returned
    unchanged by the same call, and sorting it with ['desc'] gives what
    sorting the original with ['desc'] gives. *)
Theorem sort_of_sorted `{JSStrings} (tasks : list Task) (field : SortField)
  (criteria : list SortCriteria) :
  sortTasks (sortTasks tasks field asc) field asc = sortTasks tasks field asc ∧
  sortTasks (sortTasks tasks field asc) field desc
    = sortTasks tasks field desc ∧
  multiSort (multiSort tasks criteria) criteria = multiSort tasks criteria.
Proof.
  assert (Array_sort (COMPARATORS field) (Array_sort (COMPARATORS field) tasks)
          = Array_sort (COMPARATORS field) tasks) as Hfix.
  { apply Array_sort_sorted, Array_sort_before, COMPARATORS_consistent. }
  split_and!.
  - exact Hfix.
  - unfold sortTasks. by rewrite Hfix.
  - apply Array_sort_sorted, Array_sort_before, multiSort_compare_consistent.
Qed.

(** X4: a filter stage may be applied before or after the sort: selecting
    from the sorted list gives the same list as sorting the selection, for
    [sortTasks] in both directions and for [multiSort]. *)
Theorem sort_commutes_with_stage `{JSStrings} (stage : Stage)
  (tasks : list Task) (field : SortField) (order : SortOrder)
  (criteria : list SortCriteria) :
  runStage stage (sortTasks tasks field order)
    = sortTasks (runStage stage tasks) field order ∧
  runStage stage (multiSort tasks criteria)
    = multiSort (runStage stage tasks) criteria.
Proof.
  destruct (runStage_filter stage) as [p Hp]. rewrite !Hp. split.
  - by rewrite sortTasks_filter.
  - unfold multiSort.
    by rewrite (Array_sort_filter _ (multiSort_compare_consistent criteria)).
Qed.

(** X5: the filter stages commute with one another and each is idempotent,
    so they can be composed in any order and repeated without changing the
    result. *)
Theorem stages_commute `{JSStrings} (s1 s2 : Stage) (tasks : list Task) :
  runStage s1 (runStage s2 tasks) = runStage s2 (runStage s1 tasks) ∧
  runStage s1 (runStage s1 tasks) = runStage s1 tasks.
Proof.
  destruct (runStage_filter s1) as [p1 Hp1].
  destruct (runStage_filter s2) as [p2 Hp2].
  rewrite !Hp1, !Hp2, !filter_filter. split.
  - apply filter_ext_bool. intros t. apply andb_comm.
  - apply filter_ext_bool. intros t. by destruct (p1 t).
Qed.

(** X6: [applyFilters] returns exactly the tasks that pass the search and the
    three categorical constraints, each as often as it occurs in the input,
    sorted by the chosen field and order. *)
Theorem applyFilters_selection `{JSStrings} (tasks : list Task)
  (filters : TaskFilters) :
  applyFilters tasks filters
    = sortTasks (List.filter (passesFilters filters) tasks)
        (SortBy_as_SortField (sortBy filters)) (sortOrder filters) ∧
  applyFilters tasks filters ≡ₚ List.filter (passesFilters filters) tasks ∧
  (length (applyFilters tasks filters) ≤ length tasks)%nat ∧
  Forall (λ t, t ∈ tasks ∧ passesFilters filters t = true)
    (applyFilters tasks filters).
Proof.
  rewrite applyFilters_filter. split_and!.
  - done.
  - apply sortTasks_perm.
  - rewrite sortTasks_perm. apply filter_length_le.
  - rewrite sortTasks_perm. apply Forall_forall. intros t Ht.
    apply list_elem_of_In, filter_In in Ht as [Ht Hp].
    by apply list_elem_of_In in Ht.
Qed.

(** ** Overdue tasks and the counters *)

Lemma filter_sublist_impl {A} (p q : A → bool) (l : list A) :
  (∀ x, p x = true → q x = true) →
  List.filter p l `sublist_of` List.filter q l.
Proof.
  intros Hpq. induction l as [|x l IH]; simpl; [done|].
  destruct (p x) eqn:Hp.
  - rewrite (Hpq x Hp). by constructor.
  - destruct (q x); [by constructor|done].
Qed.

Lemma countIf_length p tasks : countIf p tasks = Z.of_nat (length (List.filter p tasks)).
Proof. done. Qed.

(** X7: the [overdue] counter of [calculateStats] is the number of tasks
    that [filterOverdue] returns at the same instant; a task overdue at one
    instant is overdue at every later one; an overdue task is never done and
    always has a due date in the past. *)
Theorem overdue_filter_and_count (now later : Z) (tasks : list Task) :
  now ≤ later →
  overdue (calculateStats now tasks)
    = Z.of_nat (length (filterOverdue now tasks)) ∧
  filterOverdue now tasks `sublist_of` filterOverdue later tasks ∧
  filterOverdue now (filterByStatus tasks (Exactly Done)) = [] ∧
  Forall (λ t, status t ≠ Done ∧ ∃ due, dueDate t = Some due ∧ due < now)
    (filterOverdue now tasks).
Proof.
  intros Hlater.
  assert (∀ t, overdueAt now t = isTaskOverdue now t) as Hsame.
  { intros t. unfold overdueAt, isTaskOverdue.
    destruct (dueDate t); [|done]. by case_decide; case_bool_decide. }
  split_and!.
  - rewrite calculateStats_overdue. unfold countIf, filterOverdue.
    by rewrite (filter_ext_bool _ _ _ Hsame).
  - apply filter_sublist_impl. intros t. unfold overdueAt.
    destruct (dueDate t) as [due|]; [|done].
    rewrite !andb_true_iff, !Z.ltb_lt. intros [? ?]. split; [done|lia].
  - unfold filterOverdue. simpl. rewrite filter_filter.
    induction tasks as [|t l IH]; simpl; [done|].
    assert (bool_decide (status t = Done) && overdueAt now t = false) as ->;
      [|done].
    unfold overdueAt. case_bool_decide; [|done].
    by destruct (dueDate t).
  - apply Forall_forall. intros t Ht.
    apply list_elem_of_In, filter_In in Ht as [_ Ht]. unfold overdueAt in Ht.
    destruct (dueDate t) as [due|]; [|done].
    apply andb_true_iff in Ht as [Hst Hdue]. apply Z.ltb_lt in Hdue.
    apply negb_true_iff, bool_decide_eq_false in Hst. eauto.
Qed.

Lemma overdue_filter_and_count_witness :
  overdue (calculateStats Fixtures.FIXED_NOW Fixtures.FILTER_TASKS)
    = Z.of_nat (length (filterOverdue Fixtures.FIXED_NOW Fixtures.FILTER_TASKS))
  ∧ filterOverdue Fixtures.FIXED_NOW Fixtures.FILTER_TASKS
      `sublist_of` filterOverdue (Fixtures.FIXED_NOW + 1) Fixtures.FILTER_TASKS.
Proof.
  destruct (overdue_filter_and_count Fixtures.FIXED_NOW
              (Fixtures.FIXED_NOW + 1) Fixtures.FILTER_TASKS)
    as (Hcount & Hsub & _).
  - lia.
  - split; [exact Hcount | exact Hsub].
Defined.

Lemma countIf_status_sum tasks :
  countIf (λ t, bool_decide (status t = Todo)) tasks
  + countIf (λ t, bool_decide (status t = InProgress)) tasks
  + countIf (λ t, bool_decide (status t = Done)) tasks
  = Z.of_nat (length tasks).
Proof.
  induction tasks as [|t l IH]; [done|]. rewrite !countIf_cons.
  cbn [length]. destruct (status t); simpl; lia.
Qed.

Lemma countIf_priority_sum tasks :
  countIf (λ t, bool_decide (priority t = Low)) tasks
  + countIf (λ t, bool_decide (priority t = Medium)) tasks
  + countIf (λ t, bool_decide (priority t = High)) tasks
  + countIf (λ t, bool_decide (priority t = Critical)) tasks
  = Z.of_nat (length tasks).
Proof.
  induction tasks as [|t l IH]; [done|]. rewrite !countIf_cons.
  cbn [length]. destruct (priority t); simpl; lia.
Qed.

Lemma countIf_category_sum tasks :
  countIf (λ t, bool_decide (category t = Work)) tasks
  + countIf (λ t, bool_decide (category t = Personal)) tasks
  + countIf (λ t, bool_decide (category t = Shopping)) tasks
  + countIf (λ t, bool_decide (category t = Health)) tasks
  + countIf (λ t, bool_decide (category t = Other)) tasks
  = Z.of_nat (length tasks).
Proof.
  induction tasks as [|t l IH]; [done|]. rewrite !countIf_cons.
  cbn [length]. destruct (category t); simpl; lia.
Qed.

Lemma countIf_overdue_done now tasks :
  0 ≤ countIf (isTaskOverdue now) tasks ∧
  countIf (isTaskOverdue now) tasks
  + countIf (λ t, bool_decide (status t = Done)) tasks
  ≤ Z.of_nat (length tasks).
Proof.
  induction tasks as [|t l IH]; [done|]. rewrite !countIf_cons.
  cbn [length].
  assert (0 ≤ (if isTaskOverdue now t then 1 else 0) ∧
          (if isTaskOverdue now t then 1 else 0)
          + (if bool_decide (status t = Done) then 1 else 0) ≤ 1) as Ht.
  { unfold isTaskOverdue. destruct (dueDate t) as [due|].
    - case_decide; case_bool_decide; try done; try lia.
      destruct (due <? now); lia.
    - case_bool_decide; lia. }
  lia.
Qed.

(** X8: in the result of [calculateStats] the counters of each family add up
    to [total]: every task is counted under exactly one status, one priority
    and one category; and the overdue tasks are among those not done. *)
Theorem stats_counters_sum (now : Z) (tasks : list Task) :
  let stats := calculateStats now tasks in
  byStatus stats !!! Todo + byStatus stats !!! InProgress
    + byStatus stats !!! Done = total stats ∧
  byPriority stats !!! Low + byPriority stats !!! Medium
    + byPriority stats !!! High + byPriority stats !!! Critical
    = total stats ∧
  byCategory stats !!! Work + byCategory stats !!! Personal
    + byCategory stats !!! Shopping + byCategory stats !!! Health
    + byCategory stats !!! Other = total stats ∧
  0 ≤ overdue stats ≤ total stats - byStatus stats !!! Done.
Proof.
  intros stats. subst stats.
  rewrite calculateStats_total, calculateStats_overdue.
  unfold lookup_total, map_lookup_total.
  rewrite !calculateStats_byStatus, !calculateStats_byPriority,
    !calculateStats_byCategory. simpl.
  pose proof (countIf_status_sum tasks).
  pose proof (countIf_priority_sum tasks).
  pose proof (countIf_category_sum tasks).
  pose proof (countIf_overdue_done now tasks). lia.
Qed.

(** ** Arrays: who allocates and who does not *)

(** X9: [sortTasks], [multiSort] and the filters never write to an array
    that existed before the call.  The sorts and every filter that has a
    constraint to apply (the search with a query that is not blank
    included) return a newly allocated array; a categorical filter given
    ['all'], and the search given a blank query, return the very array they
    were given, without allocating. *)
Theorem arrays_never_mutated `{JSStrings} (σ : gmap positive (list Task))
  (r : positive) (l : list Task) (field : SortField) (order : SortOrder)
  (criteria : list SortCriteria) (now : Z) (p : Priority) (c : Category)
  (s : Status) (query : string) :
  σ !! r = Some l →
  Arrays.yields_new (Arrays.sortTasks r field order) σ
    (sortTasks l field order) ∧
  Arrays.yields_new (Arrays.multiSort r criteria) σ (multiSort l criteria) ∧
  Arrays.yields_new (Arrays.filterByPriority r (Exactly p)) σ
    (filterByPriority l (Exactly p)) ∧
  Arrays.yields_new (Arrays.filterByCategory r (Exactly c)) σ
    (filterByCategory l (Exactly c)) ∧
  Arrays.yields_new (Arrays.filterByStatus r (Exactly s)) σ
    (filterByStatus l (Exactly s)) ∧
  Arrays.yields_new (Arrays.filterOverdue now r) σ (filterOverdue now l) ∧
  Arrays.filterByPriority r All σ = Some (r, σ) ∧
  Arrays.filterByCategory r All σ = Some (r, σ) ∧
  Arrays.filterByStatus r All σ = Some (r, σ) ∧
  Arrays.filterTasksBySearch r "" σ = Some (r, σ) ∧
  (toLowerCase (trim query) ≠ "" →
   Arrays.yields_new (Arrays.filterTasksBySearch r query) σ
     (filterTasksBySearch l query)) ∧
  (toLowerCase (trim query) = "" →
   Arrays.filterTasksBySearch r query σ = Some (r, σ)).
Proof.
  intros Hr. split_and!; try done.
  - by apply yields_new_sortTasks.
  - by apply yields_new_multiSort.
  - by apply yields_new_filter.
  - by apply yields_new_filter.
  - by apply yields_new_filter.
  - by apply yields_new_filterOverdue.
  - unfold Arrays.filterTasksBySearch.
    by rewrite trim_empty, toLowerCase_empty, decide_True.
  - intros Hq. unfold Arrays.filterTasksBySearch, filterTasksBySearch.
    rewrite !decide_False by done. by apply yields_new_filter.
  - intros Hq. unfold Arrays.filterTasksBySearch. by rewrite decide_True.
Qed.

Lemma arrays_never_mutated_witness :
  Arrays.yields_new (Arrays.sortTasks 1%positive SortTitle desc)
    {[ 1%positive := Fixtures.TASKS ]}
    (sortTasks Fixtures.TASKS SortTitle desc) ∧
  Arrays.yields_new (Arrays.filterTasksBySearch 1%positive "Apple")
    {[ 1%positive := Fixtures.TASKS ]} [Fixtures.apple].
Proof.
  destruct (arrays_never_mutated {[ 1%positive := Fixtures.TASKS ]}
              1%positive Fixtures.TASKS SortTitle desc [] 0 Low Work Todo
              "Apple")
    as (Hsort & _ & _ & _ & _ & _ & _ & _ & _ & _ & Hsearch & _).
  - reflexivity.
  - split; [exact Hsort|]. by apply Hsearch.
Defined.

(** ** Grouping *)

Lemma fold_groupTasksByStatus tasks (groups : gmap Status (list Task)) s :
  fold_left
    (λ groups task,
       alter (λ group, (group ++ [task])%list) (status task) groups)
    tasks groups !! s
  = (λ group,
       (group ++ List.filter (λ t, bool_decide (status t = s)) tasks)%list)
    <$> groups !! s.
Proof.
  revert groups. induction tasks as [|t l IH]; intros groups; simpl.
  - destruct (groups !! s); simpl; [|done]. by rewrite app_nil_r.
  - rewrite IH, lookup_alter. case_decide as Hs; case_bool_decide; try done.
    subst s. destruct (groups !! status t); simpl; [|done].
    by rewrite <- app_assoc.
Qed.

Lemma fold_groupTasksByCategory tasks (acc : gmap Category (list Task)) c :
  fold_left
    (λ acc task,
       <[category task :=
           (default [] (acc !! category task) ++ [task])%list]> acc)
    tasks acc !! c
  = match List.filter (λ t, bool_decide (category t = c)) tasks with
    | [] => acc !! c
    | group => Some (default [] (acc !! c) ++ group)%list
    end.
Proof.
  revert acc. induction tasks as [|t l IH]; intros acc; simpl; [done|].
  rewrite IH. case_bool_decide as Hc.
  - subst c. rewrite lookup_insert_eq. simpl.
    destruct (List.filter _ l); simpl; by rewrite <- ?app_assoc.
  - by rewrite lookup_insert_ne.
Qed.

(** X10: [groupTasksByStatus] always has the three status keys; the group
    under a status is what [filterByStatus] selects for it, in input order;
    and its length is the counter [calculateStats] reports for that
    status. *)
Theorem groupTasksByStatus_groups (now : Z) (tasks : list Task) (s : Status) :
  groupTasksByStatus tasks !! s = Some (filterByStatus tasks (Exactly s)) ∧
  byStatus (calculateStats now tasks) !! s
    = Some (Z.of_nat (length (groupTasksByStatus tasks !!! s))).
Proof.
  assert (groupTasksByStatus tasks !! s
          = Some (filterByStatus tasks (Exactly s))) as Hgroup.
  { unfold groupTasksByStatus. rewrite fold_groupTasksByStatus.
    by destruct s. }
  split; [done|].
  rewrite calculateStats_byStatus.
  unfold lookup_total, map_lookup_total. by rewrite Hgroup.
Qed.

(** X11: [groupTasksByCategory] has a key exactly for the categories that
    occur: the group under a category is what [filterByCategory] selects for
    it, in input order, and a category without tasks has no entry (never an
    empty array). *)
Theorem groupTasksByCategory_groups (tasks : list Task) (c : Category) :
  groupTasksByCategory tasks !! c
  = match filterByCategory tasks (Exactly c) with
    | [] => None
    | group => Some group
    end.
Proof.
  unfold groupTasksByCategory. rewrite fold_groupTasksByCategory. simpl.
  by destruct (List.filter _ tasks).
Qed.

(** ** CRUD helpers *)

Lemma Task_object_get (t : Task) (k : string) :
  Objects.get (Objects.Task_object t) k =
    if decide (k = "description")
    then from_option Objects.VString Objects.VUndefined (description t)
    else if decide (k = "dueDate")
    then from_option Objects.VTime Objects.VUndefined (dueDate t)
    else if decide (k = "assignee")
    then from_option Objects.VString Objects.VUndefined (assignee t)
    else if decide (k = "id") then Objects.VString (id t)
    else if decide (k = "title") then Objects.VString (title t)
    else if decide (k = "priority")
    then Objects.VString (Priority_label (priority t))
    else if decide (k = "category")
    then Objects.VString (Category_label (category t))
    else if decide (k = "status")
    then Objects.VString (Status_label (status t))
    else if decide (k = "createdAt") then Objects.VTime (createdAt t)
    else if decide (k = "updatedAt") then Objects.VTime (updatedAt t)
    else if decide (k = "tags") then Objects.VStrings (tags t)
    else Objects.VUndefined.
Proof.
  unfold Objects.get, Objects.Task_object, Objects.optional.
  destruct (description t), (dueDate t), (assignee t); simpl;
    repeat (case_decide; [subst k; by simplify_map_eq|]);
    by simplify_map_eq.
Qed.

Lemma optional_lookup k' v (o : gmap string Objects.Value) k :
  Objects.optional k' v o !! k =
    match (if decide (k = k') then v else None) with
    | Some x => Some x
    | None => o !! k
    end.
Proof.
  unfold Objects.optional. destruct v; case_decide; subst.
  - by rewrite lookup_insert_eq.
  - by rewrite lookup_insert_ne.
  - done.
  - done.
Qed.

Lemma Update_object_lookup (u : TaskUpdate) (k : string) :
  Update_object u !! k =
    if decide (k = "id") then Objects.VString <$> u_id u
    else if decide (k = "title") then Objects.VString <$> u_title u
    else if decide (k = "description")
    then from_option Objects.VString Objects.VUndefined <$> u_description u
    else if decide (k = "priority")
    then Objects.VString ∘ Priority_label <$> u_priority u
    else if decide (k = "category")
    then Objects.VString ∘ Category_label <$> u_category u
    else if decide (k = "status")
    then Objects.VString ∘ Status_label <$> u_status u
    else if decide (k = "dueDate")
    then from_option Objects.VTime Objects.VUndefined <$> u_dueDate u
    else if decide (k = "createdAt") then Objects.VTime <$> u_createdAt u
    else if decide (k = "updatedAt") then Objects.VTime <$> u_updatedAt u
    else if decide (k = "tags") then Objects.VStrings <$> u_tags u
    else if decide (k = "assignee")
    then from_option Objects.VString Objects.VUndefined <$> u_assignee u
    else None.
Proof.
  unfold Update_object. rewrite !optional_lookup.
  repeat (case_decide;
          [subst k; simpl;
           match goal with |- context [fmap _ ?f] => by destruct f end|]).
  done.
Qed.

(** X12: the typed [updateTask] and the object literal agree: reading any
    property of the task [updateTask] returns gives the value the object
    built by [{ ...task, ...updates, id, createdAt, updatedAt }] has for it,
    also for a payload that carries [id], [createdAt] or [updatedAt]. *)
Theorem updateTask_agrees (now : Z) (task : Task) (updates : TaskUpdate)
  (k : string) :
  Objects.get (Objects.Task_object (updateTask now task updates)) k
  = Objects.get
      (Objects.updateTask_literal now (Objects.Task_object task)
         (Update_object updates)) k.
Proof.
  rewrite Task_object_get. unfold Objects.get at 1.
  rewrite updateTask_literal_lookup, Update_object_lookup.
  pose proof (Task_object_get task) as Htask.
  unfold Objects.get in Htask.
  repeat (case_decide;
          [subst k; simpl;
           try match goal with |- context [fmap _ ?f] => destruct f end;
           simpl; unfold Objects.get; rewrite ?Htask; done|]).
  simpl. rewrite Htask. by repeat case_decide.
Qed.

(** ** Ids and the status cycle *)

Lemma split_at_underscore a a' r r' :
  no_underscore a → no_underscore a' →
  (a ++ String "_" r = a' ++ String "_" r')%string → a = a' ∧ r = r'.
Proof.
  revert a'. induction a as [|c a IH]; intros [|c' a']; simpl.
  - by intros _ _ [= ->].
  - by intros _ [Hc' _] [= <- _].
  - by intros [Hc _] _ [= -> _].
  - intros [_ Ha] [_ Ha'] [= -> Heq].
    by destruct (IH a' Ha Ha' Heq) as [-> ->].
Qed.

Lemma string_of_uint_no_underscore d :
  no_underscore (NilEmpty.string_of_uint d).
Proof. induction d; simpl; (done || (split; [discriminate|done])). Qed.

Lemma decimal_no_underscore n : no_underscore (decimal n).
Proof.
  unfold decimal. destruct (Z.to_int n) as [d|d]; simpl.
  - destruct d; try apply (string_of_uint_no_underscore (_ _)).
    simpl. split; [discriminate|done].
  - split; [discriminate|].
    destruct d; try apply (string_of_uint_no_underscore (_ _)).
    simpl. split; [discriminate|done].
Qed.

Lemma decimal_inj n m : decimal n = decimal m → n = m.
Proof.
  unfold decimal. intros Heq.
  apply (f_equal NilZero.int_of_string) in Heq.
  assert (∀ z, NilZero.int_of_string (NilZero.string_of_int (Z.to_int z))
               = Some (Z.to_int z)) as Hisi.
  { intros z. apply NilZero.isi; destruct z; simpl; try discriminate;
      intros [= E]; by apply DecimalPos.Unsigned.to_uint_nonnil in E. }
  rewrite !Hisi in Heq. injection Heq as Heq.
  apply (f_equal Z.of_int) in Heq. by rewrite !DecimalZ.of_to in Heq.
Qed.

Lemma all_chars_app p a b :
  all_chars p (a ++ b)%string = all_chars p a && all_chars p b.
Proof. induction a as [|c a IH]; simpl; [done|]. by rewrite IH, andb_assoc. Qed.

Lemma string_of_uint_digits d :
  all_chars url_safe (NilEmpty.string_of_uint d) = true.
Proof. induction d; simpl; by rewrite ?IHd. Qed.

Lemma decimal_url_safe n : 0 ≤ n → all_chars url_safe (decimal n) = true.
Proof.
  unfold decimal. destruct n as [|p|p]; [done| |lia]. intros _. simpl.
  unfold NilZero.string_of_uint.
  destruct (Pos.to_uint p); try apply (string_of_uint_digits (_ _)). done.
Qed.

(** X13: ids made by [generateId] at different instants or from different
    random parts are different; every id starts with [task_], and consists
    of lower-case letters, digits and underscores when the random part does
    and the clock is not negative. *)
Theorem generateId_unique (now now' : Z) (random random' : string) :
  (generateId now random = generateId now' random' →
   now = now' ∧ random = random') ∧
  String.prefix "task_" (generateId now random) = true ∧
  (0 ≤ now → all_chars url_safe random = true →
   all_chars url_safe (generateId now random) = true).
Proof.
  split_and!.
  - unfold generateId. intros [= Heq].
    apply split_at_underscore in Heq as [Hd ->];
      [|apply decimal_no_underscore..].
    split; [by apply decimal_inj|done].
  - unfold generateId. simpl.
    match goal with |- String.prefix _ ?s = true => by destruct s end.
  - intros Hnow Hrandom. unfold generateId.
    rewrite !all_chars_app, decimal_url_safe, Hrandom by done. done.
Qed.

Lemma generateId_unique_witness :
  all_chars url_safe (generateId 1718452800000 "k3j9x0q2a") = true.
Proof.
  destruct (generateId_unique 1718452800000 1718452800000
              "k3j9x0q2a" "k3j9x0q2a") as (_ & _ & Hsafe).
  apply Hsafe; [lia|reflexivity].
Defined.

(** X14: the status cycle has length three: toggling a task three times
    gives the task back with only [updatedAt] moved, while one or two
    toggles always leave it in another status; putting the old status back
    after a toggle gives what an update with the empty payload gives. *)
Theorem toggleTaskStatus_cycle (n1 n2 n3 : Z) (task : Task) :
  toggleTaskStatus n3 (toggleTaskStatus n2 (toggleTaskStatus n1 task))
    = updateTask n3 task noUpdate ∧
  status (toggleTaskStatus n1 task) ≠ status task ∧
  status (toggleTaskStatus n2 (toggleTaskStatus n1 task)) ≠ status task ∧
  withStatus (status task) (toggleTaskStatus n1 task)
    = updateTask n1 task noUpdate.
Proof.
  destruct task as [? ? ? ? ? st ? ? ? ? ?]. by destruct st.
Qed.


(** ** The updaters of [useTasks] and the handlers of the API *)

Lemma toggleTaskStatus_thrice n1 n2 n3 task :
  toggleTaskStatus n3 (toggleTaskStatus n2 (toggleTaskStatus n1 task))
  = updateTask n3 task noUpdate.
Proof. destruct task as [? ? ? ? ? st ? ? ? ? ?]. by destruct st. Qed.

Lemma filter_all {A} (p : A → bool) (l : list A) :
  Forall (λ x, p x = true) l → List.filter p l = l.
Proof. induction 1 as [|x l Hx _ IH]; simpl; [done|]. by rewrite Hx, IH. Qed.

Lemma filter_length_lt {A} (p : A → bool) (l : list A) x :
  x ∈ l → p x = false → (length (List.filter p l) < length l)%nat.
Proof.
  intros Hin Hp. induction Hin as [x l|x y l Hin IH]; simpl.
  - rewrite Hp. pose proof (filter_length_le p l). lia.
  - specialize (IH Hp). destruct (p y); simpl; lia.
Qed.

Lemma not_in_ids taskId (l : list Task) :
  taskId ∉ id <$> l ↔ Forall (λ t, id t ≠ taskId) l.
Proof.
  rewrite Forall_forall. split.
  - intros Hnot t Ht Heq. apply Hnot. rewrite <- Heq.
    by apply list_elem_of_fmap_2.
  - intros Hall (t & -> & Ht)%list_elem_of_fmap. by apply (Hall t).
Qed.

Lemma removeTask_absent taskId prev :
  taskId ∉ id <$> prev → removeTask taskId prev = prev.
Proof.
  rewrite not_in_ids. intros Hall. apply filter_all.
  eapply Forall_impl; [exact Hall|]. intros t Ht.
  by apply bool_decide_eq_true.
Qed.

Lemma removeTask_ids taskId prev : taskId ∉ id <$> removeTask taskId prev.
Proof.
  apply not_in_ids, Forall_forall. intros t Ht.
  apply list_elem_of_In, filter_In in Ht as [_ Ht].
  by apply bool_decide_eq_true in Ht.
Qed.

(** X15: [removeTask] deletes every task with the given id and nothing
    else: the id no longer occurs, the other tasks stay in order, an id that
    does not occur leaves the list as it is, one that occurs makes it
    shorter, and removing a task just added under a new id gives back the
    list from before. *)
Theorem removeTask_removes (taskId : string) (task : Task)
  (prev : list Task) :
  (taskId ∉ id <$> removeTask taskId prev) ∧
  (removeTask taskId prev `sublist_of` prev) ∧
  (taskId ∉ id <$> prev → removeTask taskId prev = prev) ∧
  (taskId ∈ id <$> prev →
   (length (removeTask taskId prev) < length prev)%nat) ∧
  (id task ∉ id <$> prev → removeTask (id task) (addTask task prev) = prev) ∧
  (id task ≠ taskId → task ∈ prev → task ∈ removeTask taskId prev).
Proof.
  split_and!.
  - apply removeTask_ids.
  - apply filter_sublist.
  - apply removeTask_absent.
  - intros (t & -> & Hin)%list_elem_of_fmap.
    apply (filter_length_lt _ _ t Hin). by apply bool_decide_eq_false_2; auto.
  - intros Hnot. unfold addTask, removeTask. simpl.
    rewrite bool_decide_eq_false_2 by auto. by apply removeTask_absent.
  - intros Hne Hin. apply list_elem_of_In, filter_In.
    split; [by apply list_elem_of_In|]. by apply bool_decide_eq_true.
Qed.

Lemma removeTask_removes_witness :
  removeTask "9" (addTask (Fixtures.t "9" "New" Low 0 None) Fixtures.TASKS)
  = Fixtures.TASKS.
Proof.
  destruct (removeTask_removes "9" (Fixtures.t "9" "New" Low 0 None)
              Fixtures.TASKS) as (_ & _ & _ & _ & Hround & _).
  apply Hround. by vm_compute; intros H; repeat (apply elem_of_cons in H as [H|H]; [discriminate|]); apply elem_of_nil in H.
Defined.

Lemma map_if_absent (f : Task → Task) taskId prev :
  taskId ∉ id <$> prev →
  map (λ t, if decide (id t = taskId) then f t else t) prev = prev.
Proof.
  rewrite not_in_ids. induction 1 as [|t l Ht _ IH]; simpl; [done|].
  by rewrite decide_False, IH.
Qed.

Lemma map_if_ids (f : Task → Task) taskId prev :
  (∀ t, id (f t) = id t) →
  id <$> map (λ t, if decide (id t = taskId) then f t else t) prev
  = id <$> prev.
Proof.
  intros Hf. induction prev as [|t l IH]; simpl; [done|].
  f_equal; [by case_decide|apply IH].
Qed.

(** X16: [editTask] and [toggleStatus] keep the list in place: same length,
    same ids in the same order (whatever id the payload carries), same
    creation dates, for both; tasks with another id are untouched and an id that does
    not occur changes nothing.  Toggling the same id three times gives what
    an edit with the empty payload gives: the statuses are back and only
    [updatedAt] has moved. *)
Theorem editTask_in_place (now n2 n3 : Z) (taskId : string)
  (updates : TaskUpdate) (prev : list Task) :
  id <$> editTask now taskId updates prev = id <$> prev ∧
  createdAt <$> editTask now taskId updates prev = createdAt <$> prev ∧
  id <$> toggleStatus now taskId prev = id <$> prev ∧
  (taskId ∉ id <$> prev → editTask now taskId updates prev = prev) ∧
  (taskId ∉ id <$> prev → toggleStatus now taskId prev = prev) ∧
  removeTask taskId (editTask now taskId updates prev)
    = removeTask taskId prev ∧
  toggleStatus n3 taskId (toggleStatus n2 taskId (toggleStatus now taskId prev))
    = editTask n3 taskId noUpdate prev ∧
  createdAt <$> toggleStatus now taskId prev = createdAt <$> prev.
Proof.
  split_and!.
  - by apply map_if_ids.
  - unfold editTask. induction prev as [|t l IH]; simpl; [done|].
    f_equal; [by case_decide|apply IH].
  - by apply map_if_ids.
  - apply map_if_absent.
  - apply map_if_absent.
  - unfold editTask, removeTask.
    induction prev as [|t l IH]; simpl; [done|]. rewrite IH.
    case_decide as Ht; simpl.
    + by rewrite !bool_decide_eq_false_2 by auto.
    + by rewrite !bool_decide_eq_true_2 by auto.
  - unfold toggleStatus, editTask.
    induction prev as [|t l IH]; simpl; [done|]. rewrite IH. f_equal.
    destruct (decide (id t = taskId)) as [Ht|Ht]; simpl.
    + destruct (decide (id t = taskId)); [simpl|done].
      destruct (decide (id t = taskId)); [|done].
      apply toggleTaskStatus_thrice.
    + destruct (decide (id t = taskId)); [done|simpl].
      by destruct (decide (id t = taskId)).
  - unfold toggleStatus. induction prev as [|t l IH]; simpl; [done|].
    f_equal; [by case_decide|apply IH].
Qed.

Lemma findIndex_none {A} (p : A → bool) l :
  Forall (λ x, p x = false) l → findIndex p l = -1.
Proof. induction 1 as [|x l Hx _ IH]; simpl; [done|]. by rewrite Hx, IH. Qed.

Lemma findIndex_first {A} (p : A → bool) l1 x l2 :
  Forall (λ x, p x = false) l1 → p x = true →
  findIndex p (l1 ++ x :: l2) = Z.of_nat (length l1).
Proof.
  intros Hl1 Hx. induction Hl1 as [|y l Hy _ IH]; simpl.
  - by rewrite Hx.
  - rewrite Hy, IH. destruct (Z.ltb_spec (Z.of_nat (length l)) 0); lia.
Qed.

Lemma splice_insert_at {A} (item : A) l1 l2 :
  splice_insert (Z.of_nat (length l1)) item (l1 ++ l2)
  = (l1 ++ item :: l2)%list.
Proof.
  unfold splice_insert.
  destruct (Z.ltb_spec (Z.of_nat (length l1)) 0); [lia|].
  rewrite length_app, Z.min_l, Nat2Z.id by lia.
  by rewrite take_app_length, drop_app_length.
Qed.

Lemma splice_insert_length {A} start (item : A) l :
  length (splice_insert start item l) = S (length l).
Proof.
  unfold splice_insert. rewrite length_app. simpl.
  rewrite length_take, length_drop. lia.
Qed.

Lemma find_id_None taskId (l : list Task) :
  List.find (λ t, bool_decide (id t = taskId)) l = None ↔ taskId ∉ id <$> l.
Proof.
  rewrite not_in_ids. induction l as [|t l IH]; simpl.
  - split; [constructor|done].
  - case_bool_decide as Ht.
    + split; [done|]. intros Hall. by inversion Hall.
    + rewrite IH. split; [by constructor|]. intros Hall. by inversion Hall.
Qed.

Lemma find_id_Some taskId (l : list Task) t :
  List.find (λ t, bool_decide (id t = taskId)) l = Some t ↔
  ∃ l1 l2, l = (l1 ++ t :: l2)%list ∧ (taskId ∉ id <$> l1) ∧ id t = taskId.
Proof.
  split.
  - induction l as [|u l IH]; simpl; [done|]. case_bool_decide as Hu.
    + intros [= ->]. exists [], l. split_and!; [done| |done].
      simpl. apply not_elem_of_nil.
    + intros (l1 & l2 & -> & Hl1 & Ht)%IH. exists (u :: l1), l2.
      split_and!; [done| |done]. csimpl. rewrite not_elem_of_cons. auto.
  - intros (l1 & l2 & -> & Hl1 & Ht). induction l1 as [|u l1 IH]; simpl.
    + by rewrite bool_decide_eq_true_2.
    + csimpl in Hl1. apply not_elem_of_cons in Hl1 as [Hu Hl1].
      rewrite bool_decide_eq_false_2 by auto. by apply IH.
Qed.

(** X17: [duplicateTaskById] returns [null] and leaves the list alone when
    the list it closed over has no task with the id.  Otherwise it returns
    the copy of the first such task, and the next list is the previous one
    with the copy placed right after the first task with that id, or at the
    front when the previous list no longer has one; either way it is one
    longer. *)
Theorem duplicateTaskById_inserts (now idNow : Z) (random taskId : string)
  (tasks prev : list Task) :
  (taskId ∉ id <$> tasks →
   duplicateTaskById now idNow random taskId tasks prev = (None, prev)) ∧
  (taskId ∈ id <$> tasks →
   ∃ original,
     List.find (λ t, bool_decide (id t = taskId)) tasks = Some original ∧
     let copy := duplicateTask now idNow random original in
     let next := (duplicateTaskById now idNow random taskId tasks prev).2 in
     (duplicateTaskById now idNow random taskId tasks prev).1 = Some copy ∧
     length next = S (length prev) ∧
     (taskId ∉ id <$> prev → next = copy :: prev) ∧
     (∀ l1 t l2, prev = (l1 ++ t :: l2)%list → taskId ∉ id <$> l1 →
                 id t = taskId → next = (l1 ++ t :: copy :: l2)%list)).
Proof.
  split.
  - intros Hnot%find_id_None. unfold duplicateTaskById. by rewrite Hnot.
  - intros Hin. unfold duplicateTaskById.
    destruct (List.find _ tasks) as [original|] eqn:Hfind;
      [|by apply find_id_None in Hfind].
    exists original. split; [done|]. simpl. split_and!.
    + done.
    + apply splice_insert_length.
    + intros Hnot%not_in_ids.
      rewrite findIndex_none; [apply (splice_insert_at _ [] prev)|].
      eapply Forall_impl; [exact Hnot|]. intros t Ht.
      by apply bool_decide_eq_false_2.
    + intros l1 t l2 -> Hl1%not_in_ids Ht.
      rewrite findIndex_first.
      * replace (Z.of_nat (length l1) + 1)
          with (Z.of_nat (length (l1 ++ [t])))
          by (rewrite length_app; simpl; lia).
        rewrite (cons_middle t l1 l2), app_assoc, splice_insert_at.
        by rewrite <- app_assoc.
      * eapply Forall_impl; [exact Hl1|]. intros u Hu.
        by apply bool_decide_eq_false_2.
      * by apply bool_decide_eq_true_2.
Qed.

Lemma existsb_id taskId (l : list Task) :
  existsb (λ t, bool_decide (id t = taskId)) l = true ↔ taskId ∈ id <$> l.
Proof.
  rewrite existsb_exists, list_elem_of_fmap. split.
  - intros (t & Ht%list_elem_of_In & Hid%bool_decide_eq_true). by exists t.
  - intros (t & -> & Ht). exists t. split; [by apply list_elem_of_In|].
    by apply bool_decide_eq_true.
Qed.

(** X18: the error responses of the two handlers.  [PATCH] and [DELETE]
    answer 404 exactly when no task of the store has the id; [PATCH] does so
    whatever the body, also one that does not parse, and answers 400 exactly
    when the id is in the store and the body does not parse.  A 404 or a 400
    carries an error message and no data, and leaves the store as it was. *)
Theorem handlers_error_responses (now : Z) (store : list Task)
  (paramsId : string) (body : option TaskUpdate) :
  let notFound {A} : Response A :=
    mkResponse 404 None (Some "Task not found.") None in
  let invalid : Response Task :=
    mkResponse 400 None (Some "Invalid JSON body.") None in
  ((PATCH now store paramsId body).1 = Responds notFound ↔
   paramsId ∉ id <$> store) ∧
  ((PATCH now store paramsId body).1 = Responds invalid ↔
   paramsId ∈ id <$> store ∧ body = None) ∧
  ((DELETE store paramsId).1 = Responds notFound ↔
   paramsId ∉ id <$> store) ∧
  (∀ response,
     (PATCH now store paramsId body).1 = Responds response →
     r_status response = 404 ∨ r_status response = 400 →
     (PATCH now store paramsId body).2 = store ∧
     r_data response = None ∧ is_Some (r_error response)) ∧
  (∀ response,
     (DELETE store paramsId).1 = Responds response →
     r_status response = 404 →
     (DELETE store paramsId).2 = store ∧
     r_data response = None ∧ is_Some (r_error response)).
Proof.
  cbv zeta. unfold PATCH, DELETE, setStore.
  destruct (existsb _ store) eqn:Hex;
    destruct (List.find _ store) as [existing|] eqn:Hfind.
  - apply existsb_id in Hex. destruct body as [body|]; simpl.
    + split_and!.
      * split; [done|]. by intros Hnot.
      * split; [done|]. by intros [_ [=]].
      * split; [done|]. by intros Hnot.
      * by intros response [=].
      * by intros response [=].
    + split_and!.
      * split; [done|]. by intros Hnot.
      * by split.
      * split; [done|]. by intros Hnot.
      * intros response [= <-] _. by split_and!; [| |eexists].
      * by intros response [=].
  - apply existsb_id in Hex. by apply find_id_None in Hfind.
  - apply find_id_Some in Hfind as (l1 & l2 & -> & _ & Hid).
    apply not_true_iff_false in Hex. destruct Hex. apply existsb_id.
    rewrite <- Hid, fmap_app. apply elem_of_app. right. csimpl. by left.
  - apply find_id_None in Hfind. simpl. split_and!.
    + by split.
    + split; [done|]. by intros [? _].
    + by split.
    + intros response [= <-] _. by split_and!; [| |eexists].
    + intros response [= <-] _. by split_and!; [| |eexists].
Qed.

Lemma splice_insert_perm {A} start (item : A) l :
  splice_insert start item l ≡ₚ item :: l.
Proof.
  unfold splice_insert. rewrite <- Permutation_middle.
  by rewrite take_drop.
Qed.

Lemma store_ok_map (f : Task → Task) taskId l :
  (∀ t, id (f t) = id t) →
  (∀ t, t ∈ l → timestamps_ordered (f t)) →
  store_ok l →
  store_ok (map (λ t, if decide (id t = taskId) then f t else t) l).
Proof.
  intros Hid Hf [Hnodup Hall]. split.
  - by rewrite (map_if_ids f taskId l Hid).
  - apply Forall_forall. intros u (t & <- & Ht)%list_elem_of_In%in_map_iff.
    apply list_elem_of_In in Ht. simpl. case_decide; [by apply Hf|].
    by apply (proj1 (Forall_forall _ _) Hall).
Qed.

(** X21: every updater of [useTasks] keeps the ids of the list pairwise
    distinct and [createdAt] no later than [updatedAt], provided the clock
    is not behind the creation dates and the id drawn for a new task is not
    in use.  In particular no payload of [editTask] can change an id. *)
Theorem updaters_keep_store_ok `{JSStrings} (now idNow : Z)
  (random taskId : string) (data : CreateTaskPayload)
  (updates : TaskUpdate) (tasks prev : list Task) :
  store_ok prev →
  Forall (λ t, createdAt t ≤ now) prev →
  generateId idNow random ∉ id <$> prev →
  store_ok (addTask (createTask now idNow random data) prev) ∧
  store_ok (editTask now taskId updates prev) ∧
  store_ok (removeTask taskId prev) ∧
  store_ok (toggleStatus now taskId prev) ∧
  store_ok (duplicateTaskById now idNow random taskId tasks prev).2.
Proof.
  intros Hok Hclock Hfresh.
  assert (∀ t, t ∈ prev → createdAt t ≤ now) as Hclock'.
  { by apply Forall_forall. }
  split_and!.
  - destruct Hok as [Hnodup Hall]. split.
    + csimpl. by apply NoDup_cons_2.
    + apply Forall_cons. split; [|done]. unfold timestamps_ordered. simpl. lia.
  - apply store_ok_map; [done| |done]. intros t Ht.
    unfold timestamps_ordered. simpl. by apply Hclock'.
  - destruct Hok as [Hnodup Hall]. split.
    + eapply sublist_NoDup; [exact Hnodup|].
      apply fmap_sublist, filter_sublist.
    + apply Forall_forall. intros t Ht.
      apply list_elem_of_In, filter_In in Ht as [Ht _].
      apply list_elem_of_In in Ht.
      by apply (proj1 (Forall_forall _ _) Hall).
  - apply store_ok_map; [done| |done]. intros t Ht.
    unfold timestamps_ordered. simpl. by apply Hclock'.
  - unfold duplicateTaskById. destruct (List.find _ tasks); [|done]. simpl.
    destruct Hok as [Hnodup Hall]. split.
    + rewrite splice_insert_perm. csimpl. by apply NoDup_cons_2.
    + rewrite splice_insert_perm. apply Forall_cons. split; [|done].
      unfold timestamps_ordered. simpl. lia.
Qed.

Lemma updaters_keep_store_ok_witness :
  store_ok (editTask Fixtures.FIXED_NOW "2" noUpdate Fixtures.FILTER_TASKS).
Proof.
  destruct (@updaters_keep_store_ok ascii_host Fixtures.FIXED_NOW
              (Fixtures.FIXED_NOW + 1) "k3j9x0q2a"
              "2" (mkPayload "New" None None None None None None) noUpdate
              Fixtures.FILTER_TASKS Fixtures.FILTER_TASKS)
    as (_ & Hedit & _); [| | |exact Hedit].
  - split.
    + compute_done.
    + unfold timestamps_ordered. compute_done.
  - compute_done.
  - compute_done.
Defined.

(** X22: toggling the sort order of the filter state reverses the list the
    user sees, and toggling twice restores the state. *)
Theorem toggleSortOrder_reverses `{JSStrings} (tasks : list Task)
  (f : TaskFilters) :
  applyFilters tasks (toggleSortOrder f) = rev (applyFilters tasks f) ∧
  toggleSortOrder (toggleSortOrder f) = f.
Proof.
  split.
  - unfold applyFilters, sortTasks. simpl.
    destruct (sortOrder f); [done|]. by rewrite rev_involutive.
  - destruct f as [? ? ? ? ? o]. by destruct o.
Qed.

(** X23: while [isFiltered] is false the view is the whole list, sorted; the
    sort settings never make [isFiltered] true, and after any of the four
    filter setters it is false exactly when all four values are the
    defaults. *)
Theorem isFiltered_view `{JSStrings} (tasks : list Task) (f : TaskFilters)
  (field : SortBy) (order : SortOrder) :
  (isFiltered f = false →
   applyFilters tasks f
   = sortTasks tasks (SortBy_as_SortField (sortBy f)) (sortOrder f)) ∧
  isFiltered (setSortBy field f) = isFiltered f ∧
  isFiltered (setSortOrder order f) = isFiltered f ∧
  isFiltered (toggleSortOrder f) = isFiltered f ∧
  (isFiltered f = false ↔
   search f = "" ∧ f_priority f = All ∧ f_category f = All ∧
   f_status f = All).
Proof.
  assert (isFiltered f = false ↔
          search f = "" ∧ f_priority f = All ∧ f_category f = All ∧
          f_status f = All) as Hiff.
  { unfold isFiltered. simpl. rewrite !orb_false_iff.
    rewrite !bool_decide_eq_false. split.
    - intros [[[H1 H2] H3] H4]. split_and!; by apply dec_stable.
    - intros (-> & -> & -> & ->). split_and!; by intros []. }
  split_and!; try done.
  intros (Hs & Hp & Hc & Hst)%Hiff. unfold applyFilters.
  rewrite Hs, Hp, Hc, Hst. simpl. unfold filterTasksBySearch.
  by rewrite trim_empty, toLowerCase_empty, decide_True.
Qed.

Lemma isFiltered_view_witness :
  applyFilters Fixtures.TASKS DEFAULT_FILTERS
  = sortTasks Fixtures.TASKS SortCreatedAt desc.
Proof.
  destruct (@isFiltered_view ascii_host Fixtures.TASKS DEFAULT_FILTERS
              ByTitle asc) as [Hview _].
  apply Hview. reflexivity.
Defined.

(** ** Validation *)

Section ValidationProperties.
Context `{JSStrings}.
Variable Date_parse : string → option Z.

Lemma validateTitle_ok title :
  errors (validateTitle title) = [] ↔
  ∃ s, title = Some s ∧
       TITLE_MIN_LENGTH ≤ String_length (trim s) ≤ TITLE_MAX_LENGTH.
Proof.
  unfold validateTitle, TITLE_MIN_LENGTH, TITLE_MAX_LENGTH.
  destruct title as [s|]; [|split; [done|by intros (? & [=] & _)]].
  destruct (decide (trim s = "")) as [Hblank|Hblank].
  - rewrite (bool_decide_eq_true_2 _ Hblank), orb_true_r. simpl.
    split; [done|]. intros (? & [= <-] & Hlen).
    rewrite Hblank in Hlen. unfold String_length in Hlen. simpl in Hlen. lia.
  - assert (s ≠ "") as Hs.
    { intros ->. by rewrite trim_empty in Hblank. }
    rewrite !bool_decide_eq_false_2 by done. simpl.
    destruct (Z.ltb_spec (String_length (trim s)) 3).
    + split; [done|]. intros (? & [= <-] & Hlen). lia.
    + destruct (Z.ltb_spec 120 (String_length (trim s))).
      * split; [done|]. intros (? & [= <-] & Hlen). lia.
      * split; [|done]. intros _. exists s. split; [done|lia].
Qed.

Lemma validateDescription_ok description :
  errors (validateDescription description) = [] ↔
  ∀ s, description = Some s → String_length s ≤ DESCRIPTION_MAX_LENGTH.
Proof.
  unfold validateDescription, DESCRIPTION_MAX_LENGTH.
  destruct description as [s|]; [|done].
  case_bool_decide as Hs.
  - subst s. split; [|done]. by intros _ ? [= <-].
  - destruct (Z.ltb_spec 1000 (String_length s)); simpl.
    + split; [done|]. intros Hlen. specialize (Hlen s eq_refl). lia.
    + split; [|done]. intros _ ? [= <-]. lia.
Qed.

Lemma VALID_PRIORITIES_labels s :
  s ∈ VALID_PRIORITIES ↔ ∃ p, s = Priority_label p.
Proof.
  unfold VALID_PRIORITIES. rewrite !elem_of_cons, elem_of_nil. split.
  - intros [->|[->|[->|[->|[]]]]];
      [by exists Low|by exists Medium|by exists High|by exists Critical].
  - intros [[] ->]; simpl; auto.
Qed.

Lemma VALID_CATEGORIES_labels s :
  s ∈ VALID_CATEGORIES ↔ ∃ c, s = Category_label c.
Proof.
  unfold VALID_CATEGORIES. rewrite !elem_of_cons, elem_of_nil. split.
  - intros [->|[->|[->|[->|[->|[]]]]]];
      [by exists Work|by exists Personal|by exists Shopping
      |by exists Health|by exists Other].
  - intros [[] ->]; simpl; auto 10.
Qed.

Lemma validatePriority_ok priority :
  errors (validatePriority priority) = [] ↔
  ∀ s, priority = Some s → s = "" ∨ ∃ p, s = Priority_label p.
Proof.
  unfold validatePriority. destruct priority as [s|]; [|done].
  case_bool_decide as Hs.
  - split; [|done]. intros _ ? [= <-]. by left.
  - case_bool_decide as Hin; simpl.
    + split; [|done]. intros _ ? [= <-]. right.
      by apply VALID_PRIORITIES_labels.
    + split; [done|]. intros Hok.
      destruct (Hok s eq_refl) as [?|Hp]; [done|].
      by apply VALID_PRIORITIES_labels in Hp.
Qed.

Lemma validateCategory_ok category :
  errors (validateCategory category) = [] ↔
  ∀ s, category = Some s → s = "" ∨ ∃ c, s = Category_label c.
Proof.
  unfold validateCategory. destruct category as [s|]; [|done].
  case_bool_decide as Hs.
  - split; [|done]. intros _ ? [= <-]. by left.
  - case_bool_decide as Hin; simpl.
    + split; [|done]. intros _ ? [= <-]. right.
      by apply VALID_CATEGORIES_labels.
    + split; [done|]. intros Hok.
      destruct (Hok s eq_refl) as [?|Hc]; [done|].
      by apply VALID_CATEGORIES_labels in Hc.
Qed.

Lemma validateDueDate_ok now dueDate :
  errors (validateDueDate Date_parse now dueDate) = [] ↔
  ∀ s, dueDate = Some s →
       s = "" ∨ ∃ parsed, Date_parse s = Some parsed ∧ now ≤ parsed.
Proof.
  unfold validateDueDate. destruct dueDate as [s|]; [|done].
  case_bool_decide as Hs.
  - split; [|done]. intros _ ? [= <-]. by left.
  - destruct (Date_parse s) as [parsed|] eqn:Hparse; simpl.
    + destruct (Z.ltb_spec parsed now); simpl.
      * split; [done|]. intros Hok.
        destruct (Hok s eq_refl) as [?|(? & Heq & ?)]; [done|].
        rewrite Hparse in Heq. injection Heq as <-. lia.
      * split; [|done]. intros _ ? [= <-]. right. by exists parsed.
    + split; [done|]. intros Hok.
      destruct (Hok s eq_refl) as [?|(? & Heq & ?)]; [done|].
      by rewrite Hparse in Heq.
Qed.

Lemma tag_errors_nil i tags :
  tag_errors i tags = [] ↔
  Forall (λ tag, trim tag ≠ "" ∧ String_length tag ≤ TAG_MAX_LENGTH) tags.
Proof.
  revert i.
  induction tags as [|tag rest IH]; intros i; simpl; unfold TAG_MAX_LENGTH.
  - split; [constructor|done].
  - rewrite Forall_cons, <- (IH (i + 1)). case_bool_decide as Hblank.
    + split; [done|]. by intros [[? _] _].
    + destruct (Z.ltb_spec 30 (String_length tag)); simpl.
      * split; [done|]. intros [[_ ?] _]. lia.
      * split; [|by intros [_ ?]]. intros Hrest. split_and!; [done|lia|done].
Qed.

Lemma tag_errors_length i tags :
  (length (tag_errors i tags) ≤ length tags)%nat.
Proof.
  revert i. induction tags as [|tag rest IH]; intros i; simpl; [done|].
  specialize (IH (i + 1)). rewrite length_app.
  case_bool_decide; [simpl; lia|].
  destruct (_ <? _); simpl; lia.
Qed.

Lemma validateTags_ok tags :
  errors (validateTags tags) = [] ↔
  ∀ l, tags = Some l →
       Z.of_nat (length l) ≤ MAX_TAGS ∧
       Forall (λ tag, trim tag ≠ "" ∧ String_length tag ≤ TAG_MAX_LENGTH) l.
Proof.
  unfold validateTags, MAX_TAGS. destruct tags as [[|tag rest]|].
  - split; [|done]. intros _ ? [= <-]. split; [simpl; lia|constructor].
  - destruct (Z.ltb_spec 10 (Z.of_nat (length (tag :: rest)))).
    + split; [done|]. intros Hok. destruct (Hok _ eq_refl). lia.
    + destruct (tag_errors 0 (tag :: rest)) as [|e es] eqn:Herrors.
      * split; [|done]. intros _ ? [= <-]. split; [lia|].
        by apply (tag_errors_nil 0).
      * split; [done|]. intros Hok. destruct (Hok _ eq_refl) as [_ Hall].
        apply (tag_errors_nil 0) in Hall. congruence.
  - done.
Qed.

Lemma validateTask_errors_eq now payload :
  errors (validateTask Date_parse now payload)
  = (errors (validateTitle (raw_title payload))
     ++ errors (validateDescription (raw_description payload))
     ++ errors (validatePriority (raw_priority payload))
     ++ errors (validateCategory (raw_category payload))
     ++ errors (validateDueDate Date_parse now (raw_dueDate payload))
     ++ errors (validateTags (raw_tags payload)))%list.
Proof.
  unfold validateTask. cbn [map concat]. rewrite app_nil_r.
  match goal with |- context [0 <? Z.of_nat (length ?l)] =>
    destruct l as [|e es] eqn:Heq end; [done|].
  done.
Qed.

Lemma validateTask_valid_errors now payload :
  valid (validateTask Date_parse now payload) = true ↔
  errors (validateTask Date_parse now payload) = [].
Proof.
  unfold validateTask.
  match goal with |- context [0 <? Z.of_nat (length ?l)] =>
    destruct l as [|e es] eqn:Heq end; [done|].
  done.
Qed.

End ValidationProperties.

(** X24: [validateTask] accepts a payload exactly when the trimmed title has
    between 3 and 120 characters, the description has at most 1000, the
    priority and the category are absent, empty or one of the known labels,
    the due date is absent, empty or a date that parses to an instant not
    before now, and there are at most 10 tags, none blank and none longer
    than 30 characters. *)
Theorem validateTask_accepts `{JSStrings} (Date_parse : string → option Z)
  (now : Z) (payload : RawPayload) :
  valid (validateTask Date_parse now payload) = true ↔
  (∃ s, raw_title payload = Some s ∧
        TITLE_MIN_LENGTH ≤ String_length (trim s) ≤ TITLE_MAX_LENGTH) ∧
  (∀ s, raw_description payload = Some s →
        String_length s ≤ DESCRIPTION_MAX_LENGTH) ∧
  (∀ s, raw_priority payload = Some s →
        s = "" ∨ ∃ p, s = Priority_label p) ∧
  (∀ s, raw_category payload = Some s →
        s = "" ∨ ∃ c, s = Category_label c) ∧
  (∀ s, raw_dueDate payload = Some s →
        s = "" ∨ ∃ parsed, Date_parse s = Some parsed ∧ now ≤ parsed) ∧
  (∀ l, raw_tags payload = Some l →
        Z.of_nat (length l) ≤ MAX_TAGS ∧
        Forall (λ tag, trim tag ≠ "" ∧ String_length tag ≤ TAG_MAX_LENGTH) l).
Proof.
  rewrite validateTask_valid_errors, validateTask_errors_eq.
  rewrite <- validateTitle_ok, <- validateDescription_ok,
    <- validatePriority_ok, <- validateCategory_ok,
    <- (validateDueDate_ok Date_parse), <- validateTags_ok.
  rewrite !app_nil. tauto.
Qed.

Lemma validateTags_errors_length `{JSStrings} tags :
  (length (errors (validateTags tags)) ≤ length (default [] tags))%nat ∧
  (MAX_TAGS < Z.of_nat (length (default [] tags)) →
   length (errors (validateTags tags)) = 1%nat).
Proof.
  unfold validateTags, MAX_TAGS. destruct tags as [[|tag rest]|].
  - split; [done|]. intros Hmany. simpl in Hmany. lia.
  - cbn [default from_option]. unfold Datatypes.id.
    destruct (Z.ltb_spec 10 (Z.of_nat (length (tag :: rest)))) as [Hlt|Hle].
    + unfold fail. cbn [errors length]. split; [lia|done].
    + split; [|lia].
      pose proof (tag_errors_length 0 (tag :: rest)).
      by destruct (tag_errors 0 (tag :: rest)).
  - split; [done|]. intros Hmany. simpl in Hmany. lia.
Qed.

(** X25: the result of every validator is valid exactly when it carries no
    message.  [validateTask] reports the messages of the six fields in the
    order title, description, priority, category, due date, tags; each of
    the first five gives at most one message, and the tags give at most one
    per tag, and exactly one when there are more than [MAX_TAGS] of them.
    Hence there are at most 5 + max(1, number of tags) messages. *)
Theorem validateTask_errors `{JSStrings} (Date_parse : string → option Z)
  (now : Z) (payload : RawPayload) :
  let coherent r := valid r = true ↔ errors r = [] in
  coherent (validateTask Date_parse now payload) ∧
  coherent (validateTitle (raw_title payload)) ∧
  coherent (validateDescription (raw_description payload)) ∧
  coherent (validatePriority (raw_priority payload)) ∧
  coherent (validateCategory (raw_category payload)) ∧
  coherent (validateDueDate Date_parse now (raw_dueDate payload)) ∧
  coherent (validateTags (raw_tags payload)) ∧
  (length (errors (validateTask Date_parse now payload))
   ≤ 5 + max 1 (length (default [] (raw_tags payload))))%nat ∧
  errors (validateTask Date_parse now payload)
  = (errors (validateTitle (raw_title payload))
     ++ errors (validateDescription (raw_description payload))
     ++ errors (validatePriority (raw_priority payload))
     ++ errors (validateCategory (raw_category payload))
     ++ errors (validateDueDate Date_parse now (raw_dueDate payload))
     ++ errors (validateTags (raw_tags payload)))%list ∧
  (length (errors (validateTitle (raw_title payload))) ≤ 1)%nat ∧
  (length (errors (validateDescription (raw_description payload)))
   ≤ 1)%nat ∧
  (length (errors (validatePriority (raw_priority payload))) ≤ 1)%nat ∧
  (length (errors (validateCategory (raw_category payload))) ≤ 1)%nat ∧
  (length (errors (validateDueDate Date_parse now (raw_dueDate payload)))
   ≤ 1)%nat ∧
  (length (errors (validateTags (raw_tags payload)))
   ≤ length (default [] (raw_tags payload)))%nat ∧
  (MAX_TAGS < Z.of_nat (length (default [] (raw_tags payload))) →
   length (errors (validateTags (raw_tags payload))) = 1%nat).
Proof.
  assert (length (errors (validateTitle (raw_title payload))) ≤ 1)%nat
    as Htitle.
  { unfold validateTitle. destruct (raw_title payload); [|simpl; lia].
    destruct (_ || _); [simpl; lia|]. simpl.
    repeat destruct (_ <? _); simpl; lia. }
  assert (length (errors (validateDescription (raw_description payload)))
          ≤ 1)%nat as Hdescription.
  { unfold validateDescription.
    destruct (raw_description payload); [|simpl; lia].
    case_bool_decide; [simpl; lia|]. destruct (_ <? _); simpl; lia. }
  assert (length (errors (validatePriority (raw_priority payload)))
          ≤ 1)%nat as Hpriority.
  { unfold validatePriority. destruct (raw_priority payload); [|simpl; lia].
    case_bool_decide; [simpl; lia|]. destruct (negb _); simpl; lia. }
  assert (length (errors (validateCategory (raw_category payload)))
          ≤ 1)%nat as Hcategory.
  { unfold validateCategory. destruct (raw_category payload); [|simpl; lia].
    case_bool_decide; [simpl; lia|]. destruct (negb _); simpl; lia. }
  assert (length (errors (validateDueDate Date_parse now
                            (raw_dueDate payload))) ≤ 1)%nat as HdueDate.
  { unfold validateDueDate. destruct (raw_dueDate payload); [|simpl; lia].
    case_bool_decide; [simpl; lia|].
    destruct (Date_parse _); [|simpl; lia]. destruct (_ <? _); simpl; lia. }
  destruct (validateTags_errors_length (raw_tags payload)) as [Htags Hmany].
  simpl. split_and!; try done.
  - apply validateTask_valid_errors.
  - unfold validateTitle. destruct (raw_title payload); [|done].
    destruct (_ || _); [done|]. simpl. by repeat destruct (_ <? _).
  - unfold validateDescription. destruct (raw_description payload); [|done].
    case_bool_decide; [done|]. by destruct (_ <? _).
  - unfold validatePriority. destruct (raw_priority payload); [|done].
    case_bool_decide; [done|]. by destruct (negb _).
  - unfold validateCategory. destruct (raw_category payload); [|done].
    case_bool_decide; [done|]. by destruct (negb _).
  - unfold validateDueDate. destruct (raw_dueDate payload); [|done].
    case_bool_decide; [done|]. destruct (Date_parse _); [|done].
    by destruct (_ <? _).
  - unfold validateTags. destruct (raw_tags payload) as [[|tag rest]|];
      [done| |done].
    destruct (_ <? _); [done|].
    by destruct (tag_errors 0 (tag :: rest)).
  - rewrite validateTask_errors_eq, !length_app. lia.
  - apply validateTask_errors_eq.
Qed.

(** X26: the due-date check of the validator and the date predicates agree
    with the overdue test: a non-empty due date is accepted exactly when it
    is a valid date that is not past, a future date is never past and is
    always accepted, and a task that carries an accepted due date is not
    overdue at the instant of the check or before. *)
Theorem accepted_dueDate_not_overdue (Date_parse : string → option Z)
  (now earlier : Z) (dateStr : string) (task : Task) :
  (dateStr ≠ "" →
   (valid (validateDueDate Date_parse now (Some dateStr)) = true ↔
    isValidDate Date_parse (Some dateStr) = true ∧
    isPastDate Date_parse now dateStr = false)) ∧
  (isFutureDate Date_parse now dateStr = true →
   isPastDate Date_parse now dateStr = false ∧
   valid (validateDueDate Date_parse now (Some dateStr)) = true) ∧
  (valid (validateDueDate Date_parse now (Some dateStr)) = true →
   dueDate task = (if decide (dateStr = "") then None
                   else Date_parse dateStr) →
   earlier ≤ now →
   isTaskOverdue earlier task = false ∧ overdueAt earlier task = false).
Proof.
  unfold validateDueDate, isFutureDate, isPastDate, isValidDate,
    isTaskOverdue, overdueAt.
  split_and!.
  - intros Hne. rewrite (bool_decide_eq_false_2 _ Hne).
    destruct (Date_parse dateStr) as [parsed|]; simpl.
    + destruct (parsed <? now); simpl; intuition.
    + intuition.
  - case_bool_decide as Hs; [done|].
    destruct (Date_parse dateStr) as [parsed|]; simpl.
    + intros Hfuture%Z.ltb_lt.
      destruct (Z.ltb_spec parsed now); [lia|done].
    + done.
  - case_bool_decide as Hs.
    + intros _ Hdue _. rewrite decide_True in Hdue by done.
      by rewrite Hdue.
    + rewrite decide_False by done.
      destruct (Date_parse dateStr) as [parsed|]; [|done].
      destruct (Z.ltb_spec parsed now); [done|].
      intros _ -> Hearlier.
      destruct (Z.ltb_spec parsed earlier); [lia|].
      split; [by case_decide|by rewrite andb_false_r].
Qed.

Lemma accepted_dueDate_not_overdue_witness :
  isTaskOverdue Fixtures.Jan01 Fixtures.apple = false.
Proof.
  destruct (accepted_dueDate_not_overdue
              (λ s, if decide (s = "2024-01-15") then Some Fixtures.Jan15
                    else None)
              Fixtures.Jan02 Fixtures.Jan01 "2024-01-15" Fixtures.apple)
    as (_ & _ & Hnot).
  destruct Hnot as [Hnot _];
    [reflexivity|reflexivity|by vm_compute|exact Hnot].
Defined.

(** ** The regular expression of [validateEmail] *)


Lemma append_cons_inv s1 s2 c s :
  (s1 ++ s2)%string = String c s →
  (s1 = "" ∧ s2 = String c s) ∨
  ∃ s1', s1 = String c s1' ∧ s = (s1' ++ s2)%string.
Proof.
  destruct s1 as [|c1 s1]; simpl.
  - by left.
  - intros [= -> <-]. right. by exists s1.
Qed.

Lemma append_nil_inv s1 s2 : (s1 ++ s2)%string = "" → s1 = "" ∧ s2 = "".
Proof. by destruct s1. Qed.

Lemma nullable_Matches r : nullable r = true ↔ Matches r "".
Proof.
  split.
  - induction r as [| |p|r1 IH1 r2 IH2|r1 IH1 r2 IH2|r IH]; simpl; try done.
    + intros _. constructor.
    + intros [H1 H2]%andb_true_iff.
      apply (Matches_Seq r1 r2 "" ""); auto.
    + intros [H1|H2]%orb_true_iff;
        [apply Matches_Alt_l|apply Matches_Alt_r]; auto.
    + intros _. constructor.
  - intros Hm. remember "" as s eqn:Hs.
    induction Hm as [|p c Hp|r1 r2 s1 s2 _ IH1 _ IH2|r1 r2 s _ IH
                    |r1 r2 s _ IH|r|r s1 s2 _ _ _ _]; simpl; try done.
    + apply append_nil_inv in Hs as [-> ->]. by rewrite IH1, IH2.
    + by rewrite IH.
    + rewrite IH by done. apply orb_true_r.
Qed.

Lemma Matches_Star_cons r c s :
  Matches (ReStar r) (String c s) →
  ∃ s1 s2, s = (s1 ++ s2)%string ∧ Matches r (String c s1) ∧
           Matches (ReStar r) s2.
Proof.
  intros Hm. remember (ReStar r) as r' eqn:Hr.
  remember (String c s) as s' eqn:Hs.
  induction Hm as [| | | | | |r0 s1 s2 Hm1 _ Hm2 IH2]; try done.
  injection Hr as ->.
  apply append_cons_inv in Hs as [[-> ->]|(s1' & -> & ->)].
  - by apply IH2.
  - by exists s1', s2.
Qed.

Lemma derive_Matches r c s : Matches (derive c r) s ↔ Matches r (String c s).
Proof.
  revert s. induction r as [| |p|r1 IH1 r2 IH2|r1 IH1 r2 IH2|r IH];
    intros s; simpl.
  - split; inversion 1.
  - split; inversion 1.
  - destruct (p c) eqn:Hp; split.
    + inversion 1. by constructor.
    + inversion 1. constructor.
    + inversion 1.
    + inversion 1; congruence.
  - assert (Matches (ReSeq (derive c r1) r2) s ↔
            ∃ s1 s2, s = (s1 ++ s2)%string ∧ Matches r1 (String c s1) ∧
                     Matches r2 s2) as Hseq.
    { split.
      - inversion 1 as [| |? ? s1 s2 Hm1 Hm2| | | |]; subst.
        exists s1, s2. split_and!; [done|by apply IH1|done].
      - intros (s1 & s2 & -> & Hm1 & Hm2). constructor; [by apply IH1|done]. }
    split.
    + intros Hm.
      assert (Matches (ReSeq (derive c r1) r2) s ∨
              (nullable r1 = true ∧ Matches (derive c r2) s)) as [Hm'|[Hn Hm']].
      { destruct (nullable r1); [|by left].
        inversion Hm; subst; [by left|by right]. }
      * apply Hseq in Hm' as (s1 & s2 & -> & Hm1 & Hm2).
        by apply (Matches_Seq r1 r2 (String c s1) s2).
      * apply (Matches_Seq r1 r2 "" (String c s));
          [by apply nullable_Matches|by apply IH2].
    + inversion 1 as [| |? ? s1 s2 Hm1 Hm2 Hr Hs| | | |]; subst.
      apply append_cons_inv in Hs as [[-> ->]|(s1' & -> & ->)].
      * apply nullable_Matches in Hm1. rewrite Hm1.
        apply Matches_Alt_r. by apply IH2.
      * assert (Matches (ReSeq (derive c r1) r2) (s1' ++ s2)) as Hm'.
        { apply Hseq. by exists s1', s2. }
        destruct (nullable r1); [by apply Matches_Alt_l|done].
  - split.
    + inversion 1; subst;
        [apply Matches_Alt_l; by apply IH1|apply Matches_Alt_r; by apply IH2].
    + inversion 1; subst;
        [apply Matches_Alt_l; by apply IH1|apply Matches_Alt_r; by apply IH2].
  - split.
    + inversion 1 as [| |? ? s1 s2 Hm1 Hm2| | | |]; subst.
      apply (Matches_Star_app r (String c s1) s2); [by apply IH|done].
    + intros (s1 & s2 & -> & Hm1 & Hm2)%Matches_Star_cons.
      constructor; [by apply IH|done].
Qed.

Lemma RegExp_test_Matches r s : RegExp_test r s = true ↔ Matches r s.
Proof.
  revert r. induction s as [|c s IH]; intros r; simpl.
  - apply nullable_Matches.
  - by rewrite IH, derive_Matches.
Qed.

Lemma Matches_Star_Class p s :
  Matches (ReStar (ReClass p)) s ↔ all_chars p s = true.
Proof.
  split.
  - intros Hm. remember (ReStar (ReClass p)) as r eqn:Hr.
    induction Hm as [| | | | | |r0 s1 s2 Hm1 _ Hm2 IH2]; try done.
    injection Hr as ->. inversion Hm1 as [|? c Hc| | | | |]; subst.
    rewrite all_chars_app. simpl. by rewrite Hc, IH2.
  - induction s as [|c s IH]; simpl.
    + intros _. constructor.
    + intros [Hc Hs]%andb_true_iff.
      apply (Matches_Star_app (ReClass p) (String c "") s);
        [by constructor|by apply IH].
Qed.

Lemma Matches_Plus_Class p s :
  Matches (RePlus (ReClass p)) s ↔ s ≠ "" ∧ all_chars p s = true.
Proof.
  unfold RePlus. split.
  - inversion 1 as [| |? ? s1 s2 Hm1 Hm2| | | |]; subst.
    inversion Hm1 as [|? c Hc| | | | |]; subst.
    apply Matches_Star_Class in Hm2.
    rewrite all_chars_app. simpl. by rewrite Hc, Hm2.
  - intros [Hne Hall]. destruct s as [|c s]; [done|]. simpl in Hall.
    apply andb_true_iff in Hall as [Hc Hs].
    apply (Matches_Seq (ReClass p) (ReStar (ReClass p)) (String c "") s);
      [by constructor|by apply Matches_Star_Class].
Qed.

Lemma Matches_literal (a : ascii) s :
  Matches (ReClass (λ c, bool_decide (c = a))) s ↔ s = String a "".
Proof.
  split.
  - inversion 1 as [|? c Hc| | | | |]; subst.
    by apply bool_decide_eq_true in Hc as ->.
  - intros ->. constructor. by apply bool_decide_eq_true.
Qed.

(** The strings [validateEmail] accepts, in terms of the class [\s] of the
    host. *)
Lemma validateEmail_shape `{JSStrings} (white_space : ascii → bool)
  (email : string) :
  valid (validateEmail white_space email) = true ↔
  trim email ≠ "" ∧
  ∃ l d t, email = (l ++ "@" ++ d ++ "." ++ t)%string ∧
           (l ≠ "" ∧ all_chars (not_space_or_at white_space) l = true) ∧
           (d ≠ "" ∧ all_chars (not_space_or_at white_space) d = true) ∧
           (t ≠ "" ∧ all_chars (not_space_or_at white_space) t = true).
Proof.
  assert (RegExp_test (emailRegex white_space) email = true ↔
          ∃ l d t, email = (l ++ "@" ++ d ++ "." ++ t)%string ∧
           (l ≠ "" ∧ all_chars (not_space_or_at white_space) l = true) ∧
           (d ≠ "" ∧ all_chars (not_space_or_at white_space) d = true) ∧
           (t ≠ "" ∧ all_chars (not_space_or_at white_space) t = true))
    as Htest.
  { rewrite RegExp_test_Matches. unfold emailRegex. split.
    - inversion 1 as [| |? ? l s2 Hl Hm2| | | |]; subst.
      inversion Hm2 as [| |? ? at_ s3 Hat Hm3| | | |]; subst.
      inversion Hm3 as [| |? ? d s4 Hd Hm4| | | |]; subst.
      inversion Hm4 as [| |? ? dot t Hdot Ht| | | |]; subst.
      apply Matches_literal in Hat as ->. apply Matches_literal in Hdot as ->.
      apply Matches_Plus_Class in Hl, Hd, Ht. by exists l, d, t.
    - intros (l & d & t & -> & Hl & Hd & Ht).
      apply Matches_Plus_Class in Hl, Hd, Ht.
      repeat (constructor; [done || by apply Matches_literal|]). done. }
  unfold validateEmail. case_bool_decide as Hblank.
  - split; [done|]. by intros [? _].
  - destruct (RegExp_test _ email) eqn:Hre; simpl.
    + split; [|done]. intros _. split; [done|]. by apply Htest.
    + split; [done|]. intros [_ Hshape]. apply Htest in Hshape. congruence.
Qed.

Lemma all_chars_agree (dom p q : ascii → bool) s :
  (∀ c, dom c = true → p c = q c) →
  all_chars dom s = true → all_chars p s = all_chars q s.
Proof.
  intros Hpq. induction s as [|c s IH]; simpl; [done|].
  intros [Hc Hs]%andb_true_iff. by rewrite (Hpq c Hc), IH.
Qed.

(** X27: on strings of ASCII characters, [validateEmail] accepts exactly
    those that are not blank and read [local@domain.tld], where the three
    parts are non-empty and have neither ASCII white space (tab, line feed,
    vertical tab, form feed, carriage return, space) nor [@] in them; dots
    are allowed in every part. *)
Theorem validateEmail_accepts `{JSStrings} (white_space : ascii → bool)
  (email : string) :
  (∀ c, is_ascii c = true → white_space c = AsciiHost.is_space c) →
  all_chars is_ascii email = true →
  valid (validateEmail white_space email) = true ↔
  trim email ≠ "" ∧
  ∃ l d t,
    email = (l ++ "@" ++ d ++ "." ++ t)%string ∧
    (l ≠ "" ∧ all_chars (not_space_or_at AsciiHost.is_space) l = true) ∧
    (d ≠ "" ∧ all_chars (not_space_or_at AsciiHost.is_space) d = true) ∧
    (t ≠ "" ∧ all_chars (not_space_or_at AsciiHost.is_space) t = true).
Proof.
  intros Hspace Hascii. rewrite validateEmail_shape.
  assert (∀ s, all_chars is_ascii s = true →
               all_chars (not_space_or_at white_space) s
               = all_chars (not_space_or_at AsciiHost.is_space) s) as Hagree.
  { intros s. apply all_chars_agree. intros c Hc.
    unfold not_space_or_at. by rewrite (Hspace c Hc). }
  split.
  - intros [Hblank (l & d & t & -> & Hl & Hd & Ht)]. split; [done|].
    rewrite !all_chars_app in Hascii.
    apply andb_true_iff in Hascii as [Hal Hascii].
    apply andb_true_iff in Hascii as [_ Hascii].
    apply andb_true_iff in Hascii as [Had Hascii].
    apply andb_true_iff in Hascii as [_ Hat].
    exists l, d, t. by rewrite <- !Hagree.
  - intros [Hblank (l & d & t & -> & Hl & Hd & Ht)]. split; [done|].
    rewrite !all_chars_app in Hascii.
    apply andb_true_iff in Hascii as [Hal Hascii].
    apply andb_true_iff in Hascii as [_ Hascii].
    apply andb_true_iff in Hascii as [Had Hascii].
    apply andb_true_iff in Hascii as [_ Hat].
    exists l, d, t. by rewrite !Hagree.
Qed.

Lemma validateEmail_accepts_witness :
  valid (@validateEmail ascii_host AsciiHost.is_space "user@example.com")
  = true.
Proof.
  apply (@validateEmail_accepts ascii_host AsciiHost.is_space
           "user@example.com"); [done|reflexivity|].
  split; [by vm_compute|]. exists "user", "example", "com".
  by vm_compute.
Defined.

(** ** The statistics after a mutation *)

Lemma countIf_app p l1 l2 :
  countIf p (l1 ++ l2) = countIf p l1 + countIf p l2.
Proof.
  unfold countIf. rewrite List.filter_app, length_app. lia.
Qed.

Lemma unique_id_split (t : Task) prev :
  NoDup (id <$> prev) → t ∈ prev →
  ∃ l1 l2, prev = (l1 ++ t :: l2)%list ∧
           (id t ∉ id <$> l1) ∧ (id t ∉ id <$> l2).
Proof.
  intros Hnodup (l1 & l2 & ->)%list_elem_of_split. exists l1, l2.
  rewrite fmap_app in Hnodup. csimpl in Hnodup.
  apply NoDup_app in Hnodup as (_ & Hdisj & Hl2).
  apply NoDup_cons in Hl2 as [Hl2 _]. split_and!; [done| |done].
  intros Hin. apply (Hdisj _ Hin). by left.
Qed.

(** X28: the statistics follow the mutations of [useTasks].  On a list with
    unique ids, toggling a task moves one unit from the counter of its
    status to the counter of the next status and changes no other counter
    of status, priority or category, nor the total; removing the task takes
    one off the total and one off each counter the task was under; adding a
    task adds one to the total. *)
Theorem stats_follow_updaters (clock now : Z) (t newTask : Task)
  (prev : list Task) :
  NoDup (id <$> prev) → t ∈ prev →
  let before := calculateStats clock prev in
  let toggled := calculateStats clock (toggleStatus now (id t) prev) in
  let removed := calculateStats clock (removeTask (id t) prev) in
  let added := calculateStats clock (addTask newTask prev) in
  (total toggled = total before ∧
   byPriority toggled = byPriority before ∧
   byCategory toggled = byCategory before ∧
   (∀ s, byStatus toggled !!! s
         = byStatus before !!! s
           - (if decide (s = status t) then 1 else 0)
           + (if decide (s = NEXT_STATUS (status t)) then 1 else 0))) ∧
  (total removed = total before - 1 ∧
   byStatus removed !!! status t = byStatus before !!! status t - 1 ∧
   byPriority removed !!! priority t = byPriority before !!! priority t - 1 ∧
   byCategory removed !!! category t
     = byCategory before !!! category t - 1) ∧
  total added = total before + 1.
Proof.
  intros Hnodup Hin.
  destruct (unique_id_split t prev Hnodup Hin) as (l1 & l2 & -> & Hl1 & Hl2).
  assert (toggleStatus now (id t) (l1 ++ t :: l2)
          = (l1 ++ toggleTaskStatus now t :: l2)%list) as Htoggle.
  { unfold toggleStatus. rewrite map_app. simpl.
    rewrite decide_True by done.
    by rewrite !(map_if_absent (toggleTaskStatus now)). }
  assert (removeTask (id t) (l1 ++ t :: l2) = (l1 ++ l2)%list) as Hremove.
  { unfold removeTask. rewrite List.filter_app. simpl.
    rewrite bool_decide_eq_false_2 by auto.
    fold (removeTask (id t) l1). fold (removeTask (id t) l2).
    by rewrite !removeTask_absent. }
  cbv zeta. rewrite Htoggle, Hremove. unfold addTask.
  rewrite !calculateStats_total.
  unfold lookup_total, map_lookup_total.
  split_and!.
  - rewrite !length_app. simpl. lia.
  - apply map_eq. intros p. rewrite !calculateStats_byPriority.
    by rewrite !countIf_app, !countIf_cons.
  - apply map_eq. intros c. rewrite !calculateStats_byCategory.
    by rewrite !countIf_app, !countIf_cons.
  - intros s. rewrite !calculateStats_byStatus. simpl.
    rewrite !countIf_app, !countIf_cons. simpl.
    destruct t as [? ? ? ? ? st ? ? ? ? ?]. simpl.
    destruct s, st; simpl; lia.
  - rewrite !length_app. simpl. lia.
  - rewrite !calculateStats_byStatus. simpl.
    rewrite !countIf_app, !countIf_cons.
    rewrite bool_decide_eq_true_2 by done. lia.
  - rewrite !calculateStats_byPriority. simpl.
    rewrite !countIf_app, !countIf_cons.
    rewrite bool_decide_eq_true_2 by done. lia.
  - rewrite !calculateStats_byCategory. simpl.
    rewrite !countIf_app, !countIf_cons.
    rewrite bool_decide_eq_true_2 by done. lia.
  - simpl. lia.
Qed.

Lemma stats_follow_updaters_witness :
  total (calculateStats 0 (removeTask "2" Fixtures.FILTER_TASKS))
  = total (calculateStats 0 Fixtures.FILTER_TASKS) - 1.
Proof.
  destruct (stats_follow_updaters 0 0 Fixtures.highInProgress
              Fixtures.lowTodo Fixtures.FILTER_TASKS)
    as (_ & (Hremoved & _) & _); [compute_done| |exact Hremoved].
  unfold Fixtures.FILTER_TASKS. apply elem_of_cons. right.
  apply elem_of_cons. by left.
Defined.
